(** * Near-Earth-object close approaches: models, database linking, filters

    A shallow embedding of [models.py], [database.py] and [filters.py].

    - Python objects live in a store ([Heap]) and are named by references
      ([loc]); two occurrences of one reference are the same object.
    - Fallible code returns [result]; a generator is the finite trace of what
      it yields, ended by exhaustion or by the exception that escapes it.
    - Floats are IEEE 754 binary64 values in the [spec_float] representation,
      with the comparison of the Standard Library's specification. *)

From Stdlib Require Import ZArith List.
From Stdlib.Floats Require Import SpecFloat.
From stdpp Require Import gmap strings list.

Open Scope Z_scope.

(** ** Python values, truthiness and comparisons *)

Module Py.

(** Exceptions that the modelled code can raise. [InvalidReference] is not
    a Python exception: it marks a reference that names no object in the
    store, which Python itself cannot produce. *)
Inductive exn :=
| AttributeError
| TypeError
| OverflowError
| UnsupportedCriterionError
| InvalidReference.

Inductive result (A : Type) :=
| Ok (a : A)
| Raise (e : exn).
Arguments Ok {A} a.
Arguments Raise {A} e.

#[global] Instance result_ret : MRet result := fun A a => Ok a.
#[global] Instance result_bind : MBind result := fun A B f m =>
  match m with
  | Ok a => f a
  | Raise e => Raise e
  end.

Definition is_Ok {A} (r : result A) : Prop := exists a, r = Ok a.

(** [datetime.date]: ordered by year, then month, then day. *)
Record date := Date { year : Z; month : Z; day : Z }.

(** [datetime.datetime]: a date and a time of day. *)
Record datetime := Datetime { dt_date : date; hour : Z; minute : Z }.

(** A float, in the canonical form in which [binary_normalize] produces it. *)
Definition float := spec_float.
Definition nan : float := S754_nan.
Definition prec : Z := 53.
Definition emax : Z := 1024.

(** The values that reach the constructors and the filter factory. *)
Inductive value :=
| VNone
| VBool (b : bool)
| VInt (z : Z)
| VFloat (f : float)
| VDate (d : date).

(** [bool(v)]: [None], [False], [0], [0.0] and [-0.0] are falsy; a
    not-a-number float and every date are truthy. *)
Definition truthy (v : value) : bool :=
  match v with
  | VNone => false
  | VBool b => b
  | VInt z => negb (z =? 0)
  | VFloat f => negb (SFeqb f (S754_zero false))
  | VDate _ => true
  end.

(** Truthiness of an optional string: [None] and [''] are falsy. *)
Definition truthy_str (s : option string) : bool :=
  match s with
  | Some s => negb (String.eqb s "")
  | None => false
  end.

Definition int_of_bool (b : bool) : Z := if b then 1 else 0.

(** [float(z)] for an integer: round to nearest even; Python raises
    [OverflowError] where the rounding overflows. *)
Definition float_of_int (z : Z) : result float :=
  match binary_normalize prec emax z 0 false with
  | S754_infinity _ => Raise OverflowError
  | f => Ok f
  end.

(** [float(v)]. *)
Definition to_float (v : value) : result float :=
  match v with
  | VFloat f => Ok f
  | VInt z => float_of_int z
  | VBool b => float_of_int (int_of_bool b)
  | VNone | VDate _ => Raise TypeError
  end.

(** Exact comparison of a float with an integer, as Python does it;
    [None] when the float is not a number. *)
Definition float_int_compare (f : float) (z : Z) : option comparison :=
  match f with
  | S754_nan => None
  | S754_infinity s => Some (if s then Lt else Gt)
  | S754_zero _ => Some (0 ?= z)
  | S754_finite s m e =>
      let sm := if s then Z.neg m else Z.pos m in
      Some (if 0 <=? e then sm * 2 ^ e ?= z else sm ?= z * 2 ^ (- e))
  end.

Definition date_compare (a b : date) : comparison :=
  match year a ?= year b with
  | Eq => match month a ?= month b with
          | Eq => day a ?= day b
          | c => c
          end
  | c => c
  end.

Inductive ordering :=
| Ordered (c : comparison)   (* comparable, with this outcome *)
| Unordered                  (* comparable numbers, one of them not-a-number *)
| Incomparable.              (* no ordering between the two types *)

Definition of_option (o : option comparison) : ordering :=
  match o with
  | Some c => Ordered c
  | None => Unordered
  end.

Definition compare_num_int (z : Z) (b : value) : ordering :=
  match b with
  | VBool b => Ordered (z ?= int_of_bool b)
  | VInt z' => Ordered (z ?= z')
  | VFloat f => of_option (option_map CompOpp (float_int_compare f z))
  | VNone | VDate _ => Incomparable
  end.

Definition compare_values (a b : value) : ordering :=
  match a with
  | VBool x => compare_num_int (int_of_bool x) b
  | VInt z => compare_num_int z b
  | VFloat f =>
      match b with
      | VBool y => of_option (float_int_compare f (int_of_bool y))
      | VInt z => of_option (float_int_compare f z)
      | VFloat g => of_option (SFcompare f g)
      | VNone | VDate _ => Incomparable
      end
  | VDate d =>
      match b with
      | VDate d' => Ordered (date_compare d d')
      | _ => Incomparable
      end
  | VNone => Incomparable
  end.

(** [operator.eq]: never raises; values of unrelated types are unequal,
    [None] equals only [None]. *)
Definition eq (a b : value) : result bool :=
  match a, b with
  | VNone, VNone => Ok true
  | _, _ =>
      match compare_values a b with
      | Ordered Eq => Ok true
      | _ => Ok false
      end
  end.

(** [operator.le]: [a <= b]. *)
Definition le (a b : value) : result bool :=
  match compare_values a b with
  | Ordered Gt => Ok false
  | Ordered _ => Ok true
  | Unordered => Ok false
  | Incomparable => Raise TypeError
  end.

(** [operator.ge]: [a >= b]. *)
Definition ge (a b : value) : result bool :=
  match compare_values a b with
  | Ordered Lt => Ok false
  | Ordered _ => Ok true
  | Unordered => Ok false
  | Incomparable => Raise TypeError
  end.

(** A generator: what it yields, then exhaustion or an escaping exception. *)
Inductive stream (A : Type) :=
| SDone
| SRaise (e : exn)
| SYield (a : A) (s : stream A).
Arguments SDone {A}.
Arguments SRaise {A} e.
Arguments SYield {A} a s.

(** Iterating over a list. *)
Fixpoint iter {A} (l : list A) : stream A :=
  match l with
  | [] => SDone
  | a :: l' => SYield a (iter l')
  end.

(** The items a stream yields before it ends. *)
Fixpoint yields {A} (s : stream A) : list A :=
  match s with
  | SYield a s' => a :: yields s'
  | _ => []
  end.

(** The exception that ends the stream, if one does. *)
Fixpoint raised {A} (s : stream A) : option exn :=
  match s with
  | SDone => None
  | SRaise e => Some e
  | SYield _ s' => raised s'
  end.

(** [(f(x) for x in s)]. *)
Fixpoint smap {A B} (f : A -> B) (s : stream A) : stream B :=
  match s with
  | SDone => SDone
  | SRaise e => SRaise e
  | SYield a s' => SYield (f a) (smap f s')
  end.

(** [(x for x in s if p(x))]. *)
Fixpoint sfilter {A} (p : A -> result bool) (s : stream A) : stream A :=
  match s with
  | SDone => SDone
  | SRaise e => SRaise e
  | SYield a s' =>
      match p a with
      | Ok true => SYield a (sfilter p s')
      | Ok false => sfilter p s'
      | Raise e => SRaise e
      end
  end.

(** [range(n)]: [0, 1, ..., n-1], empty when [n <= 0]. *)
Definition range (n : Z) : list Z := map Z.of_nat (seq 0 (Z.to_nat n)).

(** [zip(r, s)] for a finite [r]: asks [r] first, and stops without
    touching [s] once [r] is exhausted. *)
Fixpoint zip {A B} (r : list B) (s : stream A) : stream (B * A) :=
  match r with
  | [] => SDone
  | i :: r' =>
      match s with
      | SDone => SDone
      | SRaise e => SRaise e
      | SYield a s' => SYield (i, a) (zip r' s')
      end
  end.

End Py.
Export Py.

(** ** models.py *)

Module Models.

(** A reference to an object in the store. *)
Abbreviation loc := positive (only parsing).

Record NearEarthObject := mkNEO {
  designation : string;
  name : option string;
  diameter : float;
  hazardous : bool;
  approaches : list loc   (* references to [CloseApproach] objects *)
}.

Record CloseApproach := mkCA {
  _designation : string;
  time : option datetime;
  distance : float;
  velocity : float;
  neo : option loc        (* reference to a [NearEarthObject], or [None] *)
}.

(** [NearEarthObject.__init__]. *)
Definition NearEarthObject_init (designation : string) (name : option string)
    (diameter : value) (hazardous : bool) : result NearEarthObject :=
  let name' := if truthy_str name then name else None in
  d ← (if truthy diameter then to_float diameter else Ok nan);
  Ok (mkNEO designation name' d hazardous []).

Section CloseApproachInit.
(** [helpers.cd_to_datetime], the parser of calendar-date strings, is a
    parameter here. *)
Variable cd_to_datetime : string -> result datetime.

(** [CloseApproach.__init__]. *)
Definition CloseApproach_init (designation : string) (time : option string)
    (distance velocity : value) : result CloseApproach :=
  t ← match time with
      | Some s => if truthy_str time then (t ← cd_to_datetime s; Ok (Some t))
                  else Ok None
      | None => Ok None
      end;
  d ← to_float distance;
  v ← to_float velocity;
  Ok (mkCA designation t d v None).
End CloseApproachInit.

(** The object store: NEO objects and close-approach objects are kept
    apart, each kind under its own references. *)
Record Heap := mkHeap {
  neo_objects : gmap loc NearEarthObject;
  approach_objects : gmap loc CloseApproach
}.

Definition get_neo (h : Heap) (n : loc) : result NearEarthObject :=
  match neo_objects h !! n with
  | Some o => Ok o
  | None => Raise InvalidReference
  end.

Definition get_approach (h : Heap) (a : loc) : result CloseApproach :=
  match approach_objects h !! a with
  | Some o => Ok o
  | None => Raise InvalidReference
  end.

Definition set_neo (h : Heap) (n : loc) (o : NearEarthObject) : Heap :=
  mkHeap (<[n := o]> (neo_objects h)) (approach_objects h).

Definition set_approach (h : Heap) (a : loc) (o : CloseApproach) : Heap :=
  mkHeap (neo_objects h) (<[a := o]> (approach_objects h)).

(** [approach.neo = neo]. *)
Definition with_neo (o : CloseApproach) (n : loc) : CloseApproach :=
  mkCA (_designation o) (time o) (distance o) (velocity o) (Some n).

(** [neo.approaches.append(approach)]. *)
Definition append_approach (o : NearEarthObject) (a : loc) : NearEarthObject :=
  mkNEO (designation o) (name o) (diameter o) (hazardous o) (approaches o ++ [a]).

End Models.
Export Models.

(** ** database.py *)

Module Database.

Record NEODatabase := mkDB {
  _neos : list loc;
  _approaches : list loc;
  _designation_index : gmap string loc;
  _name_index : gmap string loc
}.

(** [{neo.designation: neo for neo in neos}], continuing from [acc]:
    a later NEO replaces an earlier one under the same key. *)
Fixpoint designation_index (h : Heap) (neos : list loc) (acc : gmap string loc)
    : result (gmap string loc) :=
  match neos with
  | [] => Ok acc
  | n :: rest =>
      o ← get_neo h n;
      designation_index h rest (<[designation o := n]> acc)
  end.

(** [{neo.name: neo for neo in neos if neo.name}], continuing from [acc]. *)
Fixpoint name_index (h : Heap) (neos : list loc) (acc : gmap string loc)
    : result (gmap string loc) :=
  match neos with
  | [] => Ok acc
  | n :: rest =>
      o ← get_neo h n;
      match name o with
      | Some s => if truthy_str (name o) then name_index h rest (<[s := n]> acc)
                  else name_index h rest acc
      | None => name_index h rest acc
      end
  end.

(** The linking loop of the constructor. A [NearEarthObject] defines
    neither [__bool__] nor [__len__], so [if neo:] tests presence only. *)
Fixpoint link (idx : gmap string loc) (h : Heap) (approaches : list loc)
    : result Heap :=
  match approaches with
  | [] => Ok h
  | a :: rest =>
      ca ← get_approach h a;
      match idx !! _designation ca with
      | Some n =>
          let h1 := set_approach h a (with_neo ca n) in
          o ← get_neo h1 n;
          link idx (set_neo h1 n (append_approach o a)) rest
      | None => link idx h rest
      end
  end.

(** [NEODatabase.__init__]: the store after construction and the database. *)
Definition NEODatabase_init (h : Heap) (neos approaches : list loc)
    : result (Heap * NEODatabase) :=
  didx ← designation_index h neos ∅;
  nidx ← name_index h neos ∅;
  h' ← link didx h approaches;
  Ok (h', mkDB neos approaches didx nidx).

Definition get_neo_by_designation (db : NEODatabase) (designation : string)
    : option loc :=
  _designation_index db !! designation.

Definition get_neo_by_name (db : NEODatabase) (name : string) : option loc :=
  _name_index db !! name.

(** Anything callable on a close approach that answers true or false. *)
Definition predicate := Heap -> loc -> result bool.

(** [all(f(approach) for f in filters)]: stops at the first false. *)
Fixpoint all (filters : list predicate) (h : Heap) (approach : loc) : result bool :=
  match filters with
  | [] => Ok true
  | f :: rest =>
      b ← f h approach;
      if b : bool then all rest h approach else Ok false
  end.

(** The generator body of [query] over the remaining approaches. *)
Fixpoint query_from (h : Heap) (approaches : list loc) (filters : list predicate)
    : stream loc :=
  match approaches with
  | [] => SDone
  | approach :: rest =>
      match all filters h approach with
      | Ok true => SYield approach (query_from h rest filters)
      | Ok false => query_from h rest filters
      | Raise e => SRaise e
      end
  end.

(** [NEODatabase.query]. *)
Definition query (h : Heap) (db : NEODatabase) (filters : list predicate)
    : stream loc :=
  query_from h (_approaches db) filters.

End Database.
Export Database.

(** ** filters.py *)

Module Filters.

(** The classes of the module; [AttributeFilterBase] is [AttributeFilter]
    itself, whose [get] is not overridden. *)
Inductive filter_class :=
| AttributeFilterBase
| DateFilter
| DistanceFilter
| VelocityFilter
| DiameterFilter
| HazardousFilter.

Record AttributeFilter := mkFilter {
  cls : filter_class;
  op : value -> value -> result bool;
  value_ : value
}.

(** The [get] class methods. Reading an attribute of [None] raises
    [AttributeError]. *)
Definition get (c : filter_class) (h : Heap) (approach : loc) : result value :=
  match c with
  | AttributeFilterBase => Raise UnsupportedCriterionError
  | DateFilter =>
      ca ← get_approach h approach;
      match time ca with
      | Some t => Ok (VDate (dt_date t))
      | None => Raise AttributeError
      end
  | DistanceFilter =>
      ca ← get_approach h approach; Ok (VFloat (distance ca))
  | VelocityFilter =>
      ca ← get_approach h approach; Ok (VFloat (velocity ca))
  | DiameterFilter =>
      ca ← get_approach h approach;
      match neo ca with
      | Some n => o ← get_neo h n; Ok (VFloat (diameter o))
      | None => Raise AttributeError
      end
  | HazardousFilter =>
      ca ← get_approach h approach;
      match neo ca with
      | Some n => o ← get_neo h n; Ok (VBool (hazardous o))
      | None => Raise AttributeError
      end
  end.

(** [AttributeFilter.__call__]. *)
Definition call (f : AttributeFilter) : predicate := fun h approach =>
  x ← get (cls f) h approach;
  op f x (value_ f).

Definition is_not_None (v : value) : bool :=
  match v with
  | VNone => false
  | _ => true
  end.

(** [create_filters]; an argument left out is [VNone]. *)
Definition create_filters
    (date start_date end_date distance_min distance_max
     velocity_min velocity_max diameter_min diameter_max hazardous : value)
    : list AttributeFilter :=
  let filters := [] in
  let filters := if truthy date
    then filters ++ [mkFilter DateFilter Py.eq date] else filters in
  let filters := if truthy start_date
    then filters ++ [mkFilter DateFilter Py.ge start_date] else filters in
  let filters := if truthy end_date
    then filters ++ [mkFilter DateFilter Py.le end_date] else filters in
  let filters := if truthy distance_min
    then filters ++ [mkFilter DistanceFilter Py.ge distance_min] else filters in
  let filters := if truthy distance_max
    then filters ++ [mkFilter DistanceFilter Py.le distance_max] else filters in
  let filters := if truthy velocity_min
    then filters ++ [mkFilter VelocityFilter Py.ge velocity_min] else filters in
  let filters := if truthy velocity_max
    then filters ++ [mkFilter VelocityFilter Py.le velocity_max] else filters in
  let filters := if truthy diameter_min
    then filters ++ [mkFilter DiameterFilter Py.ge diameter_min] else filters in
  let filters := if truthy diameter_max
    then filters ++ [mkFilter DiameterFilter Py.le diameter_max] else filters in
  let filters := if is_not_None hazardous
    then filters ++ [mkFilter HazardousFilter Py.eq hazardous] else filters in
  filters.

(** [range(n)] for a Python value: an integer (or a bool) is needed. *)
Definition range_of (n : value) : result (list Z) :=
  match n with
  | VInt z => Ok (range z)
  | VBool b => Ok (range (int_of_bool b))
  | VNone | VFloat _ | VDate _ => Raise TypeError
  end.

(** [limit]: the argument of the generator expression is evaluated when
    [limit] is called, so a bad [n] raises there. *)
Definition limit {A} (iterator : stream A) (n : value) : result (stream A) :=
  if truthy n then
    r ← range_of n;
    Ok (smap snd (zip r iterator))
  else Ok iterator.

End Filters.
Export Filters.

(** ** Notions used in the statements *)

(** A reference value that is a number: a bool, an integer or a float. *)
Definition is_number (v : value) : Prop :=
  match v with
  | VBool _ | VInt _ | VFloat _ => True
  | VNone | VDate _ => False
  end.

(** One of the three comparisons the filter factory uses. *)
Definition is_comparison (op : value -> value -> result bool) : Prop :=
  op = Py.eq \/ op = Py.le \/ op = Py.ge.

(** Does the designation index send approach [a] to the NEO [n]? *)
Definition resolves (idx : gmap string loc) (h : Heap) (n a : loc) : bool :=
  match approach_objects h !! a with
  | Some ca => bool_decide (idx !! _designation ca = Some n)
  | None => false
  end.

(** Every reference of the list names an object of the store. *)
Definition neos_allocated (h : Heap) (neos : list loc) : Prop :=
  Forall (fun n => is_Some (neo_objects h !! n)) neos.

Definition approaches_allocated (h : Heap) (approaches : list loc) : Prop :=
  Forall (fun a => is_Some (approach_objects h !! a)) approaches.

(** The designation of the NEO behind a reference. *)
Definition designation_of (h : Heap) (n : loc) : option string :=
  designation <$> neo_objects h !! n.

(** A NEO object with more approaches appended. *)
Definition extend (o : NearEarthObject) (l : list loc) : NearEarthObject :=
  mkNEO (designation o) (name o) (diameter o) (hazardous o) (approaches o ++ l).

(** An approach object after the linking loop has visited it. *)
Definition relink (idx : gmap string loc) (ca : CloseApproach) : CloseApproach :=
  match idx !! _designation ca with
  | Some n => with_neo ca n
  | None => ca
  end.

(** Every NEO that the index names is an object of the store. *)
Definition index_allocated (h : Heap) (idx : gmap string loc) : Prop :=
  forall d n, idx !! d = Some n -> is_Some (neo_objects h !! n).

(** ** Concrete data *)

Module Examples.

(** The float [m * 2^e]. *)
Definition dyadic (m e : Z) : float := binary_normalize prec emax m e false.

Definition noon (y m d : Z) : datetime := Datetime (Date y m d) 12 0.

(** Two NEO objects that share the designation 433. *)
Definition eros : NearEarthObject :=
  mkNEO "433" (Some "Eros") (dyadic 33 (-1)) false [].
Definition eros_twin : NearEarthObject :=
  mkNEO "433" None nan true [].
(** A hazardous NEO of unknown diameter. *)
Definition apophis : NearEarthObject :=
  mkNEO "99942" (Some "Apophis") nan true [].

(** An approach of 433 and an approach whose designation no NEO has. *)
Definition ca_eros : CloseApproach :=
  mkCA "433" (Some (noon 2020 1 1)) (dyadic 1 (-3)) (dyadic 5 0) None.
Definition ca_orphan : CloseApproach :=
  mkCA "999" (Some (noon 2020 1 2)) (dyadic 1 (-1)) (dyadic 5 0) None.
Definition ca_apophis : CloseApproach :=
  mkCA "99942" (Some (noon 2029 4 13)) (dyadic 1 (-4)) (dyadic 7 0) None.

Definition n1 : loc := 1%positive.
Definition n2 : loc := 2%positive.
Definition n3 : loc := 3%positive.
Definition a1 : loc := 11%positive.
Definition a2 : loc := 12%positive.
Definition a3 : loc := 13%positive.

(** Freshly constructed objects, nothing linked yet. *)
Definition fresh : Heap :=
  mkHeap {[ n1 := eros; n2 := eros_twin; n3 := apophis ]}
         {[ a1 := ca_eros; a2 := ca_orphan; a3 := ca_apophis ]}.

(** The store and database after [NEODatabase([n1, n3], [a2, a3])]. *)
Definition linked : Heap :=
  mkHeap {[ n1 := eros; n2 := eros_twin; n3 := append_approach apophis a3 ]}
         {[ a1 := ca_eros; a2 := ca_orphan; a3 := with_neo ca_apophis n3 ]}.
Definition linked_db : NEODatabase :=
  mkDB [n1; n3] [a2; a3] {[ "433" := n1; "99942" := n3 ]}
       {[ "Eros" := n1; "Apophis" := n3 ]}.

(** A database over the one linked approach of [linked]. *)
Definition apophis_db : NEODatabase :=
  mkDB [n3] [a3] {[ "99942" := n3 ]} {[ "Apophis" := n3 ]}.

Definition none_but (velocity_min diameter_min hazardous : value)
    : list AttributeFilter :=
  create_filters VNone VNone VNone VNone VNone velocity_min VNone
                 diameter_min VNone hazardous.

Definition near : AttributeFilter :=
  mkFilter DistanceFilter Py.le (VFloat (dyadic 1 (-2))).
Definition dangerous : AttributeFilter :=
  mkFilter HazardousFilter Py.eq (VBool true).

End Examples.

(** ** models.py, the derived fields *)

Module Derived.

(** [NearEarthObject.fullname]. *)
Definition fullname (o : NearEarthObject) : string :=
  match name o with
  | Some s => if truthy_str (name o) then designation o +:+ " (" +:+ s +:+ ")"
              else designation o
  | None => designation o
  end.

Section TimeStr.
(** [helpers.datetime_to_str], applied to what [self.time] holds, is a
    parameter here. *)
Variable datetime_to_str : option datetime -> result string.

(** [CloseApproach.time_str]. *)
Definition time_str (ca : CloseApproach) : result string :=
  datetime_to_str (time ca).
End TimeStr.

End Derived.
Export Derived.

(** ** write.py

    The writers are modelled up to the rows they hand to [csv.DictWriter]
    and the list they hand to [json.dump]; opening the file and the text
    that the two libraries produce are outside. *)

Module Writers.

(** The values that go into a row. *)
Inductive cell :=
| CNone
| CBool (b : bool)
| CFloat (f : float)
| CStr (s : string).

(** An entry of the dict built for the JSON output: a value, or the inner
    dict of the NEO. A dict is the list of its items in insertion order. *)
Inductive entry :=
| Plain (c : cell)
| Inner (items : list (string * cell)).

Definition of_name (s : option string) : cell :=
  match s with
  | Some s => CStr s
  | None => CNone
  end.

Definition fieldnames : list string :=
  ["datetime_utc"; "distance_au"; "velocity_km_s";
   "designation"; "name"; "diameter_km"; "potentially_hazardous"].

(** The file that [write_to_csv] leaves: the header line and the rows
    written so far. *)
Record csv_file := mkCsv {
  header : list string;
  rows : list (list (string * cell))
}.

Section Rows.
Variable datetime_to_str : option datetime -> result string.

(** [approach.neo.<attr>]. *)
Definition neo_attr {A} (h : Heap) (ca : CloseApproach)
    (attr : NearEarthObject -> A) : result A :=
  match neo ca with
  | Some n => o ← get_neo h n; Ok (attr o)
  | None => Raise AttributeError
  end.

(** The dict that [write_to_csv] builds for one approach, its entries
    evaluated from left to right. *)
Definition csv_row (h : Heap) (approach : loc) : result (list (string * cell)) :=
  ca ← get_approach h approach;
  t ← time_str datetime_to_str ca;
  d ← neo_attr h ca designation;
  n ← neo_attr h ca name;
  k ← neo_attr h ca diameter;
  z ← neo_attr h ca hazardous;
  Ok [("datetime_utc", CStr t);
      ("distance_au", CFloat (distance ca));
      ("velocity_km_s", CFloat (velocity ca));
      ("designation", CStr d);
      ("name", of_name n);
      ("diameter_km", CFloat k);
      ("potentially_hazardous", CBool z)].

(** The loop of [write_to_csv]: the rows written, and the exception that
    ends the loop if one does. *)
Fixpoint writerows (h : Heap) (results : stream loc)
    : list (list (string * cell)) * option exn :=
  match results with
  | SDone => ([], None)
  | SRaise e => ([], Some e)
  | SYield approach rest =>
      match csv_row h approach with
      | Ok r => let '(rs, e) := writerows h rest in (r :: rs, e)
      | Raise e => ([], Some e)
      end
  end.

(** [write_to_csv]: the file is opened and the header written before the
    first result is asked for. *)
Definition write_to_csv (h : Heap) (results : stream loc) : csv_file * option exn :=
  let '(rs, e) := writerows h results in (mkCsv fieldnames rs, e).

(** The dict that [write_to_json] builds for one approach. *)
Definition json_item (h : Heap) (approach : loc)
    : result (list (string * entry)) :=
  ca ← get_approach h approach;
  t ← time_str datetime_to_str ca;
  d ← neo_attr h ca designation;
  n ← neo_attr h ca name;
  k ← neo_attr h ca diameter;
  z ← neo_attr h ca hazardous;
  Ok [("datetime_utc", Plain (CStr t));
      ("distance_au", Plain (CFloat (distance ca)));
      ("velocity_km_s", Plain (CFloat (velocity ca)));
      ("neo", Inner [("designation", CStr d);
                     ("name", of_name n);
                     ("diameter_km", CFloat k);
                     ("potentially_hazardous", CBool z)])].

(** The loop of [write_to_json], which fills [output]. *)
Fixpoint json_output (h : Heap) (results : stream loc)
    : result (list (list (string * entry))) :=
  match results with
  | SDone => Ok []
  | SRaise e => Raise e
  | SYield approach rest =>
      item ← json_item h approach;
      items ← json_output h rest;
      Ok (item :: items)
  end.

(** [write_to_json]: the list dumped to the file; the file is opened only
    after the loop, so an exception in the loop leaves no file. *)
Definition write_to_json (h : Heap) (results : stream loc)
    : result (list (list (string * entry))) :=
  json_output h results.
End Rows.

End Writers.
Export Writers.

(** ** extract.py

    [load_neos] is modelled from the rows that [csv.DictReader] yields for
    a file whose header has the four columns that the loop reads. The
    reader gives every row all columns of the header, with [None] in the
    cells that a short line does not reach; the designation cell is taken
    to be text. Opening and parsing the file are outside. *)

Module Loader.

(** The four cells of a row that the loop reads. *)
Record neo_row := mkRow {
  pdes : string;
  name_cell : option string;
  diameter_cell : option string;
  pha : option string
}.

Inductive load_error :=
| ValueError                   (* [float] of a text that is no number *)
| Raised (e : exn).            (* raised by the constructor *)

Section LoadNeos.
(** [float] of a string; [None] stands for [ValueError]. *)
Variable float_of_string : string -> option float.

(** [row['pha'] == 'Y']. *)
Definition is_Y (cell : option string) : bool :=
  match cell with
  | Some s => String.eqb s "Y"
  | None => false
  end.

(** The body of the loop of [load_neos]. *)
Definition neo_of_row (row : neo_row) : load_error + NearEarthObject :=
  let designation := pdes row in
  let name := if truthy_str (name_cell row) then name_cell row else None in
  match (match diameter_cell row with
         | Some text => if truthy_str (diameter_cell row)
                        then float_of_string text else Some nan
         | None => Some nan
         end) with
  | None => inl ValueError
  | Some diameter =>
      let hazardous := is_Y (pha row) in
      match NearEarthObject_init designation name (VFloat diameter) hazardous with
      | Ok o => inr o
      | Raise e => inl (Raised e)
      end
  end.

(** [load_neos], from the rows on. *)
Fixpoint load_neos (rows : list neo_row) : load_error + list NearEarthObject :=
  match rows with
  | [] => inr []
  | row :: rest =>
      match neo_of_row row with
      | inl e => inl e
      | inr o =>
          match load_neos rest with
          | inl e => inl e
          | inr os => inr (o :: os)
          end
      end
  end.
End LoadNeos.

End Loader.
Export Loader.

(** ** More notions used in the statements *)

(** The first [n] steps of a stream. *)
Fixpoint stake {A} (n : nat) (s : stream A) : stream A :=
  match n with
  | O => SDone
  | S n' =>
      match s with
      | SYield a s' => SYield a (stake n' s')
      | _ => s
      end
  end.

(** The filters that read the approach alone, and those that read its NEO. *)
Definition reads_approach (f : AttributeFilter) : Prop :=
  cls f = DateFilter \/ cls f = DistanceFilter \/ cls f = VelocityFilter.

Definition reads_neo (f : AttributeFilter) : Prop :=
  cls f = DiameterFilter \/ cls f = HazardousFilter.

(** The designation of the approach behind a reference. *)
Definition approach_designation (h : Heap) (a : loc) : option string :=
  _designation <$> approach_objects h !! a.

(** The name of the NEO behind a reference, if it is a non-empty one. *)
Definition name_of (h : Heap) (n : loc) : option string :=
  o ← neo_objects h !! n;
  if truthy_str (name o) then name o else None.

(** Does the approach pass every filter, without an exception? *)
Definition passes (filters : list predicate) (h : Heap) (a : loc) : bool :=
  match all filters h a with
  | Ok true => true
  | _ => false
  end.

(** Does evaluating the filters on the approach raise? *)
Definition fails (filters : list predicate) (h : Heap) (a : loc) : option exn :=
  match all filters h a with
  | Ok _ => None
  | Raise e => Some e
  end.

(** The filter of a parameter, if the parameter counts as supplied. *)
Definition when (supplied : bool) (f : AttributeFilter) : list AttributeFilter :=
  if supplied then [f] else [].

(** The items of the dict built for the JSON output, the inner dict
    spliced in: the shape of the CSV row. *)
Definition flatten (item : list (string * entry)) : list (string * cell) :=
  concat (map (fun kv => match kv.2 with
                         | Plain c => [(kv.1, c)]
                         | Inner items => items
                         end) item).

(** * Properties *)

(** ** The filter factory *)

Section FactoryFacts.
Implicit Types v : value.

(** The zeros of the three numeric types are falsy. *)
Lemma zero_falsy (s : bool) :
  truthy (VInt 0) = false /\ truthy (VFloat (S754_zero s)) = false
  /\ truthy (VBool false) = false.
Proof. by destruct s. Qed.

Lemma guarded_append_falsy_unset (c : filter_class) o v (l : list AttributeFilter) :
  let v' := if truthy v then v else VNone in
  (if truthy v' then l ++ [mkFilter c o v'] else l)
  = (if truthy v then l ++ [mkFilter c o v] else l).
Proof. simpl. destruct (truthy v) eqn:Hv; [by rewrite Hv | done]. Qed.

(** A falsy argument is the same to [create_filters] as one left out,
    for the nine arguments tested by truthiness. *)
Lemma create_filters_falsy_unset d sd ed dn dx vn vx an ax hz :
  let unset v := if truthy v then v else VNone in
  create_filters d sd ed dn dx vn vx an ax hz
  = create_filters (unset d) (unset sd) (unset ed) (unset dn) (unset dx)
                   (unset vn) (unset vx) (unset an) (unset ax) hz.
Proof.
  intros unset. unfold create_filters, unset.
  by rewrite !guarded_append_falsy_unset.
Qed.

Lemma Forall_guarded_append (P : AttributeFilter -> Prop) (b : bool) l f :
  Forall P l -> P f -> Forall P (if b then l ++ [f] else l).
Proof. intros Hl Hf. destruct b; [|done]. apply Forall_app; auto. Qed.
End FactoryFacts.

(** C1. At a numeric threshold of exactly zero (the integer 0, or the float
    0.0 of either sign) [create_filters] returns no predicate at all: the
    guard [if velocity_min:] reads the zero as an argument left out, so the
    greater-or-equal-0 predicate that the claim requires is not produced,
    for none of the six numeric thresholds. *)
Theorem create_filters_drops_zero_threshold (s : bool) :
  let unset := VNone in
  create_filters unset unset unset unset unset (VInt 0) unset unset unset unset = []
  /\ create_filters unset unset unset unset unset (VFloat (S754_zero s))
                    unset unset unset unset = []
  /\ create_filters unset unset unset (VInt 0) (VInt 0) (VInt 0) (VInt 0)
                    (VInt 0) (VInt 0) unset = []
  /\ create_filters unset unset unset
       (VFloat (S754_zero s)) (VFloat (S754_zero s)) (VFloat (S754_zero s))
       (VFloat (S754_zero s)) (VFloat (S754_zero s)) (VFloat (S754_zero s))
       unset = [].
Proof. destruct s; repeat split; reflexivity. Qed.

(** What the dropped predicate changes: asked for [diameter_min=0], the
    query returns the approach of a NEO of unknown diameter, which the
    predicate "diameter >= 0" rejects. *)
Example zero_threshold_changes_query :
  query Examples.linked Examples.apophis_db
        (call <$> Examples.none_but VNone (VInt 0) VNone)
  = SYield Examples.a3 SDone
  /\ query Examples.linked Examples.apophis_db
           [call (mkFilter DiameterFilter Py.ge (VInt 0))]
     = SDone.
Proof. split; vm_compute; reflexivity. Qed.

(** C9. [hazardous=False] yields the hazardous equality predicate; whatever
    the other arguments, a hazardous argument other than [None] adds exactly
    that predicate at the end and [None] adds none; a numeric threshold of
    [False] or 0, by contrast, adds nothing. *)
Theorem create_filters_hazardous_False :
  let unset := VNone in
  create_filters unset unset unset unset unset unset unset unset unset (VBool false)
    = [mkFilter HazardousFilter Py.eq (VBool false)]
  /\ (forall d sd ed dn dx vn vx an ax hz,
        create_filters d sd ed dn dx vn vx an ax hz
        = create_filters d sd ed dn dx vn vx an ax VNone
          ++ match hz with
             | VNone => []
             | _ => [mkFilter HazardousFilter Py.eq hz]
             end)
  /\ (forall d sd ed dn dx vn vx an ax,
        Forall (fun f => cls f <> HazardousFilter)
               (create_filters d sd ed dn dx vn vx an ax VNone))
  /\ create_filters unset unset unset (VBool false) (VInt 0) (VBool false)
                    (VInt 0) (VBool false) (VInt 0) unset = [].
Proof.
  split; [reflexivity|]. split; [|split; [|reflexivity]].
  - intros. unfold create_filters.
    destruct hz; simpl; rewrite ?app_nil_r; reflexivity.
  - intros. unfold create_filters. cbn [is_not_None].
    repeat (apply Forall_guarded_append; [|simpl; discriminate]).
    constructor.
Qed.

(** ** Predicates *)

Section PredicateFacts.
Implicit Types (h : Heap) (f : AttributeFilter) (v : value).

(** Not-a-number is unordered with respect to every number. *)
Lemma nan_unordered v : is_number v -> compare_values (VFloat nan) v = Unordered.
Proof. by destruct v. Qed.

Lemma nan_comparison_false op v :
  is_comparison op -> is_number v -> op (VFloat nan) v = Ok false.
Proof.
  intros [-> | [-> | ->]] Hv; unfold Py.eq, Py.le, Py.ge;
    rewrite (nan_unordered v Hv); by destruct v.
Qed.

(** What [DiameterFilter.get] returns on a linked approach. *)
Lemma get_diameter_linked h a ca n o :
  get_approach h a = Ok ca -> neo ca = Some n -> get_neo h n = Ok o ->
  get DiameterFilter h a = Ok (VFloat (diameter o)).
Proof. intros Ha Hn Ho. simpl. rewrite Ha. simpl. by rewrite Hn, Ho. Qed.

Lemma diameter_filter_nan h a ca n o f :
  get_approach h a = Ok ca -> neo ca = Some n -> get_neo h n = Ok o ->
  diameter o = nan ->
  cls f = DiameterFilter -> is_comparison (op f) -> is_number (value_ f) ->
  call f h a = Ok false.
Proof.
  intros Ha Hn Ho Hd Hc Hop Hv. unfold call.
  rewrite Hc, (get_diameter_linked h a ca n o Ha Hn Ho), Hd. simpl.
  by apply nan_comparison_false.
Qed.

(** The NEO-dependent [get] methods on an approach without a NEO. *)
Lemma get_orphan h a ca c :
  get_approach h a = Ok ca -> neo ca = None ->
  c = DiameterFilter \/ c = HazardousFilter ->
  get c h a = Raise AttributeError.
Proof. intros Ha Hn [-> | ->]; simpl; rewrite Ha; simpl; by rewrite Hn. Qed.
End PredicateFacts.

(** C5. A close approach leaves its constructor with the NEO reference
    unset, and on any approach whose NEO reference is unset a diameter or
    hazardous predicate, whatever its comparison and reference value, raises
    [AttributeError] (an attribute read on [None]); it returns neither true
    nor false. *)
Theorem neo_filter_on_orphan_raises :
  (forall cd_to_datetime des t d v ca,
      CloseApproach_init cd_to_datetime des t d v = Ok ca -> neo ca = None)
  /\ (forall h a ca f,
        get_approach h a = Ok ca -> neo ca = None ->
        cls f = DiameterFilter \/ cls f = HazardousFilter ->
        call f h a = Raise AttributeError
        /\ (forall b, call f h a <> Ok b)).
Proof.
  split.
  - intros cd des t d v ca. unfold CloseApproach_init.
    destruct t as [s|]; simpl.
    + destruct (negb (String.eqb s "")); simpl.
      * destruct (cd s); simpl; [|discriminate].
        destruct (to_float d); simpl; [|discriminate].
        destruct (to_float v); simpl; [|discriminate]. by intros [= <-].
      * destruct (to_float d); simpl; [|discriminate].
        destruct (to_float v); simpl; [|discriminate]. by intros [= <-].
    + destruct (to_float d); simpl; [|discriminate].
      destruct (to_float v); simpl; [|discriminate]. by intros [= <-].
  - intros h a ca f Ha Hn Hc.
    assert (call f h a = Raise AttributeError) as Hcall.
    { unfold call. by rewrite (get_orphan h a ca (cls f) Ha Hn Hc). }
    split; [done|]. intros b. by rewrite Hcall.
Qed.

Lemma neo_filter_on_orphan_raises_witness :
  neo Examples.ca_orphan = None
  /\ call Examples.dangerous Examples.fresh Examples.a2 = Raise AttributeError.
Proof.
  split.
  - apply (proj1 neo_filter_on_orphan_raises
             (fun _ => Ok (Examples.noon 2020 1 2)) "999" (Some "2020-Jan-02 12:00")
             (VFloat (Examples.dyadic 1 (-1))) (VInt 5)).
    vm_compute. reflexivity.
  - apply (proj2 neo_filter_on_orphan_raises Examples.fresh Examples.a2
             Examples.ca_orphan Examples.dangerous).
    + vm_compute. reflexivity.
    + reflexivity.
    + right. reflexivity.
Defined.

(** C6. On a close approach linked to a NEO whose diameter is not-a-number,
    a diameter predicate with equal, less-or-equal or greater-or-equal and
    any number as reference value returns false; it does not raise. *)
Theorem diameter_filter_on_nan_is_false h a ca n o f :
  get_approach h a = Ok ca -> neo ca = Some n -> get_neo h n = Ok o ->
  diameter o = nan ->
  cls f = DiameterFilter -> is_comparison (op f) -> is_number (value_ f) ->
  call f h a = Ok false.
Proof. apply diameter_filter_nan. Qed.

Lemma diameter_filter_on_nan_is_false_witness :
  call (mkFilter DiameterFilter Py.ge (VFloat (Examples.dyadic 1 (-1))))
       Examples.linked Examples.a3 = Ok false.
Proof.
  apply (diameter_filter_on_nan_is_false Examples.linked Examples.a3
           (with_neo Examples.ca_apophis Examples.n3) Examples.n3
           (append_approach Examples.apophis Examples.a3)).
  - vm_compute. reflexivity.
  - reflexivity.
  - vm_compute. reflexivity.
  - reflexivity.
  - reflexivity.
  - right. right. reflexivity.
  - exact I.
Defined.

(** ** Entity constructors *)

(** C8. A NEO constructed with diameter 0 (the integer, or the float 0.0 of
    either sign) stores not-a-number as its diameter, and afterwards every
    diameter predicate with one of the three comparisons and a number as
    reference value is false on an approach linked to that NEO. *)
Theorem zero_diameter_stored_as_nan des nm hz (s : bool) :
  let stored := mkNEO des (if truthy_str nm then nm else None) nan hz [] in
  NearEarthObject_init des nm (VInt 0) hz = Ok stored
  /\ NearEarthObject_init des nm (VFloat (S754_zero s)) hz = Ok stored
  /\ (forall zero o h a ca n o' f,
        zero = VInt 0 \/ zero = VFloat (S754_zero s) ->
        NearEarthObject_init des nm zero hz = Ok o ->
        get_approach h a = Ok ca -> neo ca = Some n -> get_neo h n = Ok o' ->
        diameter o' = diameter o ->
        cls f = DiameterFilter -> is_comparison (op f) -> is_number (value_ f) ->
        call f h a = Ok false).
Proof.
  intros stored.
  assert (forall zero, zero = VInt 0 \/ zero = VFloat (S754_zero s) ->
            NearEarthObject_init des nm zero hz = Ok stored) as Hinit.
  { intros zero [-> | ->]; [reflexivity | by destruct s]. }
  split; [apply Hinit; by left|]. split; [apply Hinit; by right|].
  intros zero o h a ca n o' f Hz Ho Ha Hn Ho' Hd Hc Hop Hv.
  rewrite (Hinit zero Hz) in Ho. injection Ho as <-.
  by apply (diameter_filter_nan h a ca n o').
Qed.

Lemma zero_diameter_stored_as_nan_witness :
  NearEarthObject_init "99942" (Some "Apophis") (VInt 0) true = Ok Examples.apophis
  /\ call (mkFilter DiameterFilter Py.le (VInt 1)) Examples.linked Examples.a3
     = Ok false.
Proof.
  split.
  - apply (proj1 (zero_diameter_stored_as_nan "99942" (Some "Apophis") true false)).
  - apply (proj2 (proj2 (zero_diameter_stored_as_nan
                           "99942" (Some "Apophis") true false))
             (VInt 0) Examples.apophis Examples.linked Examples.a3
             (with_neo Examples.ca_apophis Examples.n3) Examples.n3
             (append_approach Examples.apophis Examples.a3)).
    + left. reflexivity.
    + reflexivity.
    + vm_compute. reflexivity.
    + reflexivity.
    + vm_compute. reflexivity.
    + reflexivity.
    + reflexivity.
    + right. left. reflexivity.
    + exact I.
Defined.

(** ** Streams and the limiter *)

Section StreamFacts.
Context {A : Type}.
Implicit Types (l : list A) (s : stream A).

Lemma yields_iter l : yields (iter l) = l.
Proof. induction l as [|a l IH]; simpl; [done | by rewrite IH]. Qed.

Lemma raised_iter l : raised (iter l) = None.
Proof. by induction l. Qed.

Lemma length_range n : length (range n) = Z.to_nat n.
Proof. unfold range. by rewrite length_map, length_seq. Qed.

(** The generator expression of [limit] over a list. *)
Lemma zip_iter {B} (r : list B) l :
  smap snd (zip r (iter l)) = iter (take (length r) l).
Proof.
  revert l. induction r as [|i r IH]; intros [|a l]; simpl; try done.
  by rewrite IH.
Qed.

(** ... and over any stream, which may end in an exception. *)
Lemma yields_zip {B} (r : list B) s :
  yields (smap snd (zip r s)) = take (length r) (yields s).
Proof.
  revert s. induction r as [|i r IH]; intros [|e|a s]; simpl; try done.
  by rewrite IH.
Qed.

Lemma take_min n l : take (n `min` length l)%nat l = take n l.
Proof.
  destruct (Nat.le_ge_cases n (length l)) as [Hle | Hge].
  - by rewrite Nat.min_l.
  - rewrite Nat.min_r by done. by rewrite !firstn_all2 by lia.
Qed.

Lemma limit_falsy s v : truthy v = false -> limit s v = Ok s.
Proof. intros Hv. unfold limit. by rewrite Hv. Qed.

Lemma limit_positive s n :
  0 < n -> limit s (VInt n) = Ok (smap snd (zip (range n) s)).
Proof.
  intros Hn. unfold limit. simpl.
  destruct (Z.eqb_spec n 0) as [-> | _]; [lia | done].
Qed.
End StreamFacts.

(** C7. With a positive maximum [n], [limit] yields the first
    [min n (length l)] items of a sequence [l] in order (of any stream: the
    first [n] of what it yields); with the maximum absent, zero or otherwise
    falsy it returns its input unchanged. *)
Theorem limit_first_n {A : Type} :
  (forall (l : list A) n, 0 < n ->
      limit (iter l) (VInt n) = Ok (iter (take (Z.to_nat n `min` length l)%nat l)))
  /\ (forall (s : stream A) n, 0 < n ->
        exists s', limit s (VInt n) = Ok s'
                   /\ yields s' = take (Z.to_nat n) (yields s))
  /\ (forall s : stream A, limit s VNone = Ok s /\ limit s (VInt 0) = Ok s)
  /\ (forall (s : stream A) v, truthy v = false -> limit s v = Ok s).
Proof.
  repeat split.
  - intros l n Hn. rewrite (limit_positive _ n Hn), zip_iter, length_range.
    by rewrite take_min.
  - intros s n Hn. eexists. split; [by apply limit_positive|].
    by rewrite yields_zip, length_range.
  - apply limit_falsy.
Qed.

Lemma limit_first_n_witness :
  limit (iter [1; 2; 3; 4; 5; 6; 7; 8; 9; 10]) (VInt 3) = Ok (iter [1; 2; 3])
  /\ limit (iter [1; 2; 3; 4; 5; 6; 7; 8; 9; 10]) (VFloat (S754_zero true))
     = Ok (iter [1; 2; 3; 4; 5; 6; 7; 8; 9; 10]).
Proof.
  split.
  - apply (proj1 limit_first_n [1; 2; 3; 4; 5; 6; 7; 8; 9; 10] 3). lia.
  - apply (proj2 (proj2 (proj2 limit_first_n))). reflexivity.
Defined.

(** ** Queries *)

Section QueryFacts.
Implicit Types (h : Heap) (fs : list predicate) (f : predicate) (a : loc).

Lemma query_from_nil h (l : list loc) : query_from h l [] = iter l.
Proof. induction l as [|a l IH]; simpl; [done | by rewrite IH]. Qed.

(** [all] answers true exactly when every filter answers true. *)
Lemma all_true_iff fs h a :
  all fs h a = Ok true <-> Forall (fun f => f h a = Ok true) fs.
Proof.
  induction fs as [|f fs IH]; simpl.
  - split; [constructor | done].
  - split.
    + destruct (f h a) as [[|]|e] eqn:Hf; simpl; try done.
      intros H. constructor; [done | by apply IH].
    + intros H. inversion H as [|? ? Hf Hfs]; subst.
      rewrite Hf. simpl. by apply IH.
Qed.

(** Two orders of the same filters cannot answer differently; one of them
    may raise where the other does not. *)
Lemma all_permutation fs fs' h a b b' :
  fs ≡ₚ fs' -> all fs h a = Ok b -> all fs' h a = Ok b' -> b = b'.
Proof.
  intros Hp Hb Hb'.
  destruct b, b'; try done.
  - apply all_true_iff in Hb. rewrite Hp in Hb. apply all_true_iff in Hb.
    congruence.
  - apply all_true_iff in Hb'. rewrite <- Hp in Hb'. apply all_true_iff in Hb'.
    congruence.
Qed.

Lemma all_total fs h a :
  Forall (fun f => is_Ok (f h a)) fs -> is_Ok (all fs h a).
Proof.
  induction 1 as [|f fs [b Hf] _ IH]; simpl; [by eexists|].
  rewrite Hf. simpl. destruct b; [done | by eexists].
Qed.

Lemma query_from_total fs h (l : list loc) :
  (forall f a, f ∈ fs -> a ∈ l -> is_Ok (f h a)) ->
  raised (query_from h l fs) = None.
Proof.
  induction l as [|a l IH]; intros Hok; simpl; [done|].
  destruct (all_total fs h a) as [b Hb].
  { apply Forall_forall. intros f Hf. apply Hok; [done | by left]. }
  rewrite Hb. destruct b; simpl; apply IH; intros f a' Hf Ha';
    apply Hok; [done | by right | done | by right].
Qed.

Lemma query_from_permutation fs fs' h (l : list loc) :
  fs ≡ₚ fs' ->
  raised (query_from h l fs) = None -> raised (query_from h l fs') = None ->
  query_from h l fs = query_from h l fs'.
Proof.
  intros Hp. induction l as [|a l IH]; simpl; [done|].
  destruct (all fs h a) as [b|e] eqn:Hb; [|done].
  destruct (all fs' h a) as [b'|e'] eqn:Hb'; [|by destruct b].
  rewrite (all_permutation fs fs' h a b b' Hp Hb Hb').
  destruct b'; simpl; intros H H'; by rewrite IH.
Qed.

(** One more filter at the end is one more generator stage. *)
Lemma query_from_snoc fs f h (l : list loc) :
  query_from h l (fs ++ [f]) = sfilter (f h) (query_from h l fs).
Proof.
  assert (forall a, all (fs ++ [f]) h a
                    = match all fs h a with
                      | Ok true => f h a
                      | r => r
                      end) as Hall.
  { intros a. induction fs as [|g fs IH]; simpl.
    - by destruct (f h a) as [[|]|].
    - destruct (g h a) as [[|]|]; simpl; by rewrite ?IH. }
  induction l as [|a l IH]; simpl; [done|].
  rewrite Hall. destruct (all fs h a) as [[|]|]; simpl; try done.
  by destruct (f h a) as [[|]|]; rewrite ?IH.
Qed.
End QueryFacts.

(** The store [Examples.linked] is what the constructor leaves behind. *)
Example linked_by_constructor :
  NEODatabase_init Examples.fresh [Examples.n1; Examples.n3]
                   [Examples.a2; Examples.a3]
  = Ok (Examples.linked, Examples.linked_db).
Proof. vm_compute. reflexivity. Qed.

(** C3. With no filters, [query] yields the stored close approaches, each
    occurrence once, in the order in which the constructor received them,
    and ends without an exception. *)
Theorem query_no_filters_yields_all :
  (forall h db,
      query h db [] = iter (_approaches db)
      /\ yields (query h db []) = _approaches db
      /\ raised (query h db []) = None)
  /\ (forall h neos approaches h' db,
        NEODatabase_init h neos approaches = Ok (h', db) ->
        query h' db [] = iter approaches).
Proof.
  assert (forall h db, query h db [] = iter (_approaches db)) as Hq.
  { intros. apply query_from_nil. }
  split.
  - intros h db. rewrite Hq. by rewrite yields_iter, raised_iter.
  - intros h neos approaches h' db Hinit. rewrite Hq.
    unfold NEODatabase_init in Hinit.
    destruct (designation_index h neos ∅); simpl in Hinit; [|done].
    destruct (name_index h neos ∅); simpl in Hinit; [|done].
    destruct (link _ h approaches); simpl in Hinit; [|done].
    by injection Hinit as _ <-.
Qed.

Lemma query_no_filters_yields_all_witness :
  query Examples.linked Examples.linked_db [] = iter [Examples.a2; Examples.a3].
Proof.
  apply (proj2 query_no_filters_yields_all Examples.fresh
           [Examples.n1; Examples.n3] [Examples.a2; Examples.a3]).
  vm_compute. reflexivity.
Defined.

(** C4, as the code has it. [query([f1, f2])] is [query([f1])] filtered
    again by [f2], exceptions included. Two orders of one filter collection
    give the same sequence whenever neither query raises, and so whenever
    every filter answers true or false on every stored approach. *)
Theorem query_composes_and_commutes :
  (forall h db f1 f2,
      query h db [f1; f2] = sfilter (f2 h) (query h db [f1]))
  /\ (forall h db fs fs',
        fs ≡ₚ fs' ->
        raised (query h db fs) = None -> raised (query h db fs') = None ->
        query h db fs = query h db fs')
  /\ (forall h db fs fs',
        fs ≡ₚ fs' ->
        (forall f a, f ∈ fs -> a ∈ _approaches db -> is_Ok (f h a)) ->
        query h db fs = query h db fs').
Proof.
  split; [|split].
  - intros h db f1 f2. apply (query_from_snoc [f1] f2).
  - intros h db fs fs'. apply query_from_permutation.
  - intros h db fs fs' Hp Hok. apply query_from_permutation; [done| |].
    + by apply query_from_total.
    + apply query_from_total. intros f a Hf. apply Hok. by rewrite Hp.
Qed.

Lemma query_composes_and_commutes_witness :
  query Examples.linked Examples.linked_db
        [call Examples.near; call (mkFilter VelocityFilter Py.ge (VInt 6))]
  = query Examples.linked Examples.linked_db
          [call (mkFilter VelocityFilter Py.ge (VInt 6)); call Examples.near].
Proof.
  apply (proj1 (proj2 query_composes_and_commutes)).
  - apply perm_swap.
  - vm_compute. reflexivity.
  - vm_compute. reflexivity.
Defined.

(** C4, as the claim has it, fails: with an approach that has no NEO in the
    store, the distance filter first keeps the hazardous filter away from
    it, and the query yields the linked approach; the hazardous filter first
    raises on the orphan before anything is yielded. *)
Lemma query_filter_order_counterexample :
  [call Examples.near; call Examples.dangerous]
    ≡ₚ [call Examples.dangerous; call Examples.near]
  /\ query Examples.linked Examples.linked_db
           [call Examples.near; call Examples.dangerous]
     = SYield Examples.a3 SDone
  /\ query Examples.linked Examples.linked_db
           [call Examples.dangerous; call Examples.near]
     = SRaise AttributeError
  /\ yields (query Examples.linked Examples.linked_db
                   [call Examples.near; call Examples.dangerous])
     <> yields (query Examples.linked Examples.linked_db
                      [call Examples.dangerous; call Examples.near]).
Proof.
  split; [apply perm_swap|].
  split; [vm_compute; reflexivity|].
  split; [vm_compute; reflexivity|].
  vm_compute. discriminate.
Qed.

(** ** Construction of the database *)

Section IndexFacts.
Implicit Types (h : Heap) (neos : list loc) (acc idx : gmap string loc).

Lemma designation_index_total h neos acc :
  neos_allocated h neos -> is_Ok (designation_index h neos acc).
Proof.
  intros Hall. revert acc.
  induction Hall as [|n neos [o Ho] _ IH]; intros acc; simpl; [by eexists|].
  unfold get_neo. rewrite Ho. simpl. apply IH.
Qed.

Lemma name_index_total h neos acc :
  neos_allocated h neos -> is_Ok (name_index h neos acc).
Proof.
  intros Hall. revert acc.
  induction Hall as [|n neos [o Ho] _ IH]; intros acc; simpl; [by eexists|].
  unfold get_neo. rewrite Ho. simpl.
  destruct (name o); [destruct (truthy_str _)|]; apply IH.
Qed.

(** The index depends on the store through the designations only. *)
Lemma designation_index_ext h h' neos acc :
  (forall n, designation_of h' n = designation_of h n) ->
  designation_index h' neos acc = designation_index h neos acc.
Proof.
  intros Hd. revert acc. induction neos as [|n neos IH]; intros acc; simpl; [done|].
  specialize (Hd n). unfold designation_of, get_neo in *.
  destruct (neo_objects h' !! n), (neo_objects h !! n); simpl in *; try done.
  injection Hd as ->. apply IH.
Qed.

(** Where a name in the index comes from. *)
Lemma designation_index_lookup h neos acc idx d n :
  designation_index h neos acc = Ok idx -> idx !! d = Some n ->
  (n ∈ neos /\ designation_of h n = Some d) \/ acc !! d = Some n.
Proof.
  revert acc. induction neos as [|m neos IH]; intros acc; simpl.
  - intros [= <-]. by right.
  - unfold get_neo. destruct (neo_objects h !! m) as [o|] eqn:Ho; simpl; [|done].
    intros Hidx Hn. destruct (IH _ Hidx Hn) as [[Hin Hdes] | Hacc].
    + left. split; [by right | done].
    + destruct (decide (designation o = d)) as [<- | Hne].
      * rewrite lookup_insert_eq in Hacc. injection Hacc as <-.
        left. split; [by left|]. unfold designation_of. by rewrite Ho.
      * rewrite lookup_insert_ne in Hacc by done. by right.
Qed.

(** A designation that no NEO of the collection has. *)
Lemma designation_index_absent h neos acc idx d :
  designation_index h neos acc = Ok idx ->
  (forall n, n ∈ neos -> designation_of h n <> Some d) ->
  idx !! d = acc !! d.
Proof.
  revert acc. induction neos as [|m neos IH]; intros acc; simpl.
  - by intros [= <-].
  - unfold get_neo. destruct (neo_objects h !! m) as [o|] eqn:Ho; simpl; [|done].
    intros Hidx Hno. rewrite (IH _ Hidx).
    + apply lookup_insert_ne. intros <-. apply (Hno m); [by left|].
      unfold designation_of. by rewrite Ho.
    + intros n Hn. apply Hno. by right.
Qed.

Lemma designation_index_app h l1 l2 acc :
  designation_index h (l1 ++ l2) acc
  = (idx ← designation_index h l1 acc; designation_index h l2 idx).
Proof.
  revert acc. induction l1 as [|m l1 IH]; intros acc; simpl; [done|].
  destruct (get_neo h m); simpl; [apply IH | done].
Qed.

(** Last write wins: the index gives the last NEO of the collection that
    carries the designation. *)
Lemma designation_index_last h pre post n acc idx d :
  designation_index h (pre ++ n :: post) acc = Ok idx ->
  designation_of h n = Some d ->
  (forall n', n' ∈ post -> designation_of h n' <> Some d) ->
  idx !! d = Some n.
Proof.
  rewrite designation_index_app.
  destruct (designation_index h pre acc) as [idx1|]; simpl; [|done].
  unfold designation_of, get_neo.
  destruct (neo_objects h !! n) as [o|]; simpl; [|done].
  intros Hidx [= <-] Hpost.
  rewrite (designation_index_absent _ _ _ _ _ Hidx Hpost).
  apply lookup_insert_eq.
Qed.

(** A designation that a single NEO object of the collection has. *)
Lemma designation_index_unique_from h neos acc idx d n :
  designation_index h neos acc = Ok idx ->
  (n ∈ neos /\ designation_of h n = Some d) \/ acc !! d = Some n ->
  (forall n', n' ∈ neos -> designation_of h n' = Some d -> n' = n) ->
  idx !! d = Some n.
Proof.
  revert acc. induction neos as [|m neos IH]; intros acc; simpl.
  - intros [= <-] [[Hin _] | Hacc] _; [by inversion Hin | done].
  - unfold get_neo. destruct (neo_objects h !! m) as [o|] eqn:Ho; simpl; [|done].
    assert (designation_of h m = Some (designation o)) as Hm.
    { unfold designation_of. by rewrite Ho. }
    intros Hidx Hfrom Huniq. apply (IH _ Hidx).
    + destruct (decide (designation o = d)) as [<- | Hne].
      * right. rewrite lookup_insert_eq. f_equal. apply Huniq; [by left | done].
      * rewrite lookup_insert_ne by done.
        destruct Hfrom as [[Hin Hd] | Hacc]; [|by right].
        left. split; [|done].
        apply elem_of_cons in Hin as [-> | Hin]; [congruence | done].
    + intros n' Hn'. apply Huniq. by right.
Qed.

Lemma designation_index_unique h neos idx d n :
  designation_index h neos ∅ = Ok idx ->
  n ∈ neos -> designation_of h n = Some d ->
  (forall n', n' ∈ neos -> designation_of h n' = Some d -> n' = n) ->
  idx !! d = Some n.
Proof.
  intros Hidx Hin Hd. apply (designation_index_unique_from _ _ _ _ _ _ Hidx).
  by left.
Qed.
End IndexFacts.

Section LinkFacts.
Implicit Types (h : Heap) (idx : gmap string loc) (approaches : list loc).

Lemma relink_with_neo idx ca n :
  idx !! _designation ca = Some n -> relink idx (with_neo ca n) = with_neo ca n.
Proof. intros Hn. unfold relink. simpl. by rewrite Hn. Qed.

(** One round of the loop leaves the designations of the approaches, and
    so what the index resolves them to, as they were. *)
Lemma resolves_set idx h a ca m o n a' :
  approach_objects h !! a = Some ca ->
  resolves idx (set_neo (set_approach h a (with_neo ca m)) m o) n a'
  = resolves idx h n a'.
Proof.
  intros Ha. unfold resolves. simpl.
  destruct (decide (a = a')) as [<- | Hne].
  - by rewrite lookup_insert_eq, Ha.
  - by rewrite lookup_insert_ne.
Qed.

(** The loop, in one formula per store: every NEO object gets the
    approaches that the index resolves to it appended, in the order of the
    collection and once per occurrence; every approach object of the
    collection gets the NEO that the index gives for its designation. *)
Lemma link_spec idx approaches h h' :
  link idx h approaches = Ok h' ->
  (forall n, neo_objects h' !! n
             = (fun o => extend o (List.filter (resolves idx h n) approaches))
                 <$> neo_objects h !! n)
  /\ (forall a, approach_objects h' !! a
                = (fun ca => if bool_decide (a ∈ approaches)
                             then relink idx ca else ca)
                    <$> approach_objects h !! a).
Proof.
  revert h. induction approaches as [|a0 rest IH]; intros h; simpl.
  - intros [= <-]. split.
    + intros n. destruct (neo_objects h !! n) as [[]|]; simpl; [|done].
      unfold extend. simpl. by rewrite app_nil_r.
    + intros a. by destruct (approach_objects h !! a).
  - unfold get_approach at 1.
    destruct (approach_objects h !! a0) as [ca|] eqn:Hca; simpl; [|done].
    destruct (idx !! _designation ca) as [m|] eqn:Hm.
    + unfold get_neo at 1. simpl.
      destruct (neo_objects h !! m) as [o|] eqn:Ho; simpl; [|done].
      intros Hlink. destruct (IH _ Hlink) as [IHn IHa]. split.
      * intros n. rewrite IHn. simpl.
        rewrite (List.filter_ext _ _ (fun a' => resolves_set idx h a0 ca m _ n a' Hca)).
        assert (resolves idx h n a0 = bool_decide (m = n)) as ->.
        { unfold resolves. rewrite Hca, Hm. apply bool_decide_ext.
          split; congruence. }
        destruct (decide (m = n)) as [<- | Hne].
        -- rewrite lookup_insert_eq, Ho, bool_decide_eq_true_2 by done. simpl.
           unfold extend, append_approach. simpl. by rewrite <- app_assoc.
        -- rewrite lookup_insert_ne by done.
           by rewrite bool_decide_eq_false_2.
      * intros a. rewrite IHa. simpl.
        destruct (decide (a0 = a)) as [<- | Hne].
        -- rewrite lookup_insert_eq, Hca. simpl.
           rewrite (bool_decide_eq_true_2 (a0 ∈ a0 :: rest)) by constructor.
           rewrite relink_with_neo by done.
           unfold relink. rewrite Hm. by destruct (bool_decide _).
        -- rewrite lookup_insert_ne by done.
           destruct (approach_objects h !! a); simpl; [|done].
           f_equal. rewrite (bool_decide_ext (a ∈ a0 :: rest) (a ∈ rest)); [done|].
           rewrite elem_of_cons. split; [intros [-> | H]; done | by right].
    + intros Hlink. destruct (IH _ Hlink) as [IHn IHa]. split.
      * intros n. rewrite IHn.
        assert (resolves idx h n a0 = false) as ->; [|done].
        unfold resolves. by rewrite Hca, Hm.
      * intros a. rewrite IHa.
        destruct (decide (a0 = a)) as [<- | Hne].
        -- rewrite Hca. simpl.
           rewrite (bool_decide_eq_true_2 (a0 ∈ a0 :: rest)) by constructor.
           unfold relink. rewrite Hm. by destruct (bool_decide _).
        -- destruct (approach_objects h !! a); simpl; [|done].
           f_equal. rewrite (bool_decide_ext (a ∈ a0 :: rest) (a ∈ rest)); [done|].
           rewrite elem_of_cons. split; [intros [-> | H]; done | by right].
Qed.
End LinkFacts.

Section ConstructorFacts.
Implicit Types (h : Heap) (idx : gmap string loc) (neos approaches : list loc).

Lemma link_total idx approaches h :
  approaches_allocated h approaches -> index_allocated h idx ->
  is_Ok (link idx h approaches).
Proof.
  revert h. induction approaches as [|a rest IH]; intros h Hall Hidx; simpl.
  - by eexists.
  - inversion Hall as [|? ? [ca Hca] Hrest]; subst.
    unfold get_approach at 1. rewrite Hca. simpl.
    destruct (idx !! _designation ca) as [m|] eqn:Hm; [|by apply IH].
    destruct (Hidx _ _ Hm) as [o Ho].
    unfold get_neo at 1. simpl. rewrite Ho. simpl. apply IH.
    + unfold approaches_allocated in *. simpl.
      eapply Forall_impl; [exact Hrest|]. intros a' Ha'. simpl in Ha'.
      destruct (decide (a = a')) as [<- | Hne].
      * by rewrite lookup_insert_eq.
      * by rewrite lookup_insert_ne.
    + intros d n Hn. simpl. destruct (decide (m = n)) as [<- | Hne].
      * by rewrite lookup_insert_eq.
      * rewrite lookup_insert_ne by done. by eapply Hidx.
Qed.

(** The loop changes no designation and no name, and removes no object. *)
Lemma link_preserves idx approaches h h' :
  link idx h approaches = Ok h' ->
  (forall n, designation_of h' n = designation_of h n)
  /\ (forall n, name <$> neo_objects h' !! n = name <$> neo_objects h !! n)
  /\ (forall n a, resolves idx h' n a = resolves idx h n a)
  /\ (forall l, neos_allocated h l -> neos_allocated h' l)
  /\ (forall l, approaches_allocated h l -> approaches_allocated h' l).
Proof.
  intros Hlink. destruct (link_spec _ _ _ _ Hlink) as [Hn Ha].
  repeat split.
  - intros n. unfold designation_of. rewrite Hn.
    by destruct (neo_objects h !! n).
  - intros n. rewrite Hn. destruct (neo_objects h !! n); reflexivity.
  - intros n a. unfold resolves. rewrite Ha.
    destruct (approach_objects h !! a) as [ca|]; simpl; [|done].
    destruct (bool_decide (a ∈ approaches)); [|done].
    unfold relink. destruct (idx !! _designation ca) eqn:Hd; simpl; by rewrite Hd.
  - intros l Hl. eapply Forall_impl; [exact Hl|]. simpl.
    intros n [o Ho]. rewrite Hn, Ho. by eexists.
  - intros l Hl. eapply Forall_impl; [exact Hl|]. simpl.
    intros a [ca Hca]. rewrite Ha, Hca. by eexists.
Qed.

Lemma name_index_ext h h' neos acc :
  (forall n, name <$> neo_objects h' !! n = name <$> neo_objects h !! n) ->
  name_index h' neos acc = name_index h neos acc.
Proof.
  intros Hd. revert acc. induction neos as [|n neos IH]; intros acc; simpl; [done|].
  specialize (Hd n). unfold get_neo.
  destruct (neo_objects h' !! n), (neo_objects h !! n); simpl in *; try done.
  injection Hd as ->. destruct (name _); [destruct (truthy_str _)|]; apply IH.
Qed.

(** The constructor returns, on collections of references to objects. *)
Lemma init_spec h neos approaches :
  neos_allocated h neos -> approaches_allocated h approaches ->
  exists idx nidx h',
    designation_index h neos ∅ = Ok idx
    /\ name_index h neos ∅ = Ok nidx
    /\ link idx h approaches = Ok h'
    /\ NEODatabase_init h neos approaches
       = Ok (h', mkDB neos approaches idx nidx).
Proof.
  intros Hn Ha.
  destruct (designation_index_total h neos ∅ Hn) as [idx Hidx].
  destruct (name_index_total h neos ∅ Hn) as [nidx Hnidx].
  destruct (link_total idx approaches h Ha) as [h' Hlink].
  { intros d n Hd.
    destruct (designation_index_lookup _ _ _ _ _ _ Hidx Hd) as [[_ Hdes] | Habs].
    - unfold designation_of in Hdes. by destruct (neo_objects h !! n).
    - by rewrite lookup_empty in Habs. }
  exists idx, nidx, h'. repeat split; try done.
  unfold NEODatabase_init. rewrite Hidx. simpl. rewrite Hnidx. simpl.
  by rewrite Hlink.
Qed.

Lemma count_occ_filter (p : loc -> bool) (l : list loc) a :
  count_occ Pos.eq_dec (List.filter p l) a
  = if p a then count_occ Pos.eq_dec l a else 0%nat.
Proof.
  induction l as [|b l IH]; simpl; [by destruct (p a)|].
  destruct (p b) eqn:Hb; simpl; destruct (Pos.eq_dec b a) as [-> | Hne];
    rewrite IH; try done.
  - by rewrite Hb.
  - by rewrite Hb.
Qed.

(** How often an approach stands in the list of the NEO that the index
    gives for it, after the loop. *)
Lemma link_count idx approaches h h' a ca n o :
  link idx h approaches = Ok h' ->
  approach_objects h !! a = Some ca -> idx !! _designation ca = Some n ->
  neo_objects h !! n = Some o ->
  exists o', neo_objects h' !! n = Some o'
    /\ count_occ Pos.eq_dec (Models.approaches o') a
       = (count_occ Pos.eq_dec (Models.approaches o) a
          + count_occ Pos.eq_dec approaches a)%nat.
Proof.
  intros Hlink Hca Hn Ho. destruct (link_spec _ _ _ _ Hlink) as [Hneo _].
  eexists. split; [by rewrite Hneo, Ho|].
  simpl. rewrite count_occ_app, count_occ_filter.
  unfold resolves. rewrite Hca. by rewrite bool_decide_eq_true_2.
Qed.

(** A construction that returned was given references to objects. *)
Lemma designation_index_allocated h neos acc idx :
  designation_index h neos acc = Ok idx -> neos_allocated h neos.
Proof.
  revert acc. induction neos as [|n neos IH]; intros acc; simpl; [constructor|].
  unfold get_neo. destruct (neo_objects h !! n) as [o|] eqn:Ho; simpl; [|done].
  intros Hidx. constructor; [by eexists | by eapply IH].
Qed.

Lemma link_allocated idx approaches h h' :
  link idx h approaches = Ok h' -> approaches_allocated h approaches.
Proof.
  revert h. induction approaches as [|a0 rest IH]; intros h; simpl; [constructor|].
  unfold get_approach at 1.
  destruct (approach_objects h !! a0) as [ca|] eqn:Hca; simpl; [|done].
  intros Hlink. constructor; [by eexists|].
  destruct (idx !! _designation ca) as [m|]; [|by apply IH].
  unfold get_neo at 1 in Hlink. simpl in Hlink.
  destruct (neo_objects h !! m); simpl in Hlink; [|done].
  eapply Forall_impl; [exact (IH _ Hlink)|]. simpl. intros a Ha.
  destruct (decide (a0 = a)) as [<- | Hne]; [by eexists|].
  by rewrite lookup_insert_ne in Ha.
Qed.

Lemma init_inv h neos approaches h' db :
  NEODatabase_init h neos approaches = Ok (h', db) ->
  exists idx nidx,
    db = mkDB neos approaches idx nidx
    /\ designation_index h neos ∅ = Ok idx
    /\ name_index h neos ∅ = Ok nidx
    /\ link idx h approaches = Ok h'.
Proof.
  unfold NEODatabase_init.
  destruct (designation_index h neos ∅) as [idx|]; simpl; [|done].
  destruct (name_index h neos ∅) as [nidx|]; simpl; [|done].
  destruct (link idx h approaches) as [h1|] eqn:Hlink; simpl; [|done].
  intros [= <- <-]. by exists idx, nidx.
Qed.
End ConstructorFacts.

Ltac allocated := repeat constructor; eexists; reflexivity.

(** A NEO that is the only object of the collection with its designation
    is also the last one with it. *)
Lemma only_is_last h (neos : list loc) n d :
  n ∈ neos -> designation_of h n = Some d ->
  (forall n', n' ∈ neos -> designation_of h n' = Some d -> n' = n) ->
  exists pre post,
    neos = pre ++ n :: post
    /\ forall n', n' ∈ post -> designation_of h n' <> Some d.
Proof.
  intros Hin Hd. induction neos as [|m neos IH] using rev_ind; intros Huniq.
  - by inversion Hin.
  - destruct (decide (m = n)) as [-> | Hne].
    + exists neos, []. split; [done|]. intros n' Hn'. by inversion Hn'.
    + apply elem_of_app in Hin as [Hin | Hin];
        [|apply list_elem_of_singleton in Hin; congruence].
      destruct (IH Hin) as (pre & post & -> & Hpost).
      { intros n' Hn'. apply Huniq. apply elem_of_app. by left. }
      exists pre, (post ++ [m]). split; [by rewrite <- app_assoc|].
      intros n' [Hn' | Hn']%elem_of_app; [by apply Hpost|].
      apply list_elem_of_singleton in Hn' as ->. intros Hm. apply Hne.
      apply Huniq; [|done]. apply elem_of_app. right. by constructor.
Qed.

(** C2, as the code has it. On collections of references to objects the
    constructor returns, and for an approach [a] of the collection whose
    designation is that of a NEO [n] of the collection, [n] being the last
    NEO of the collection with that designation (the only one, where the
    designations differ): afterwards [a.neo] is [n], and [a] stands exactly
    once in [n.approaches] provided [a] occurs once in the approach
    collection and [n.approaches] did not hold it before. An approach whose
    designation no NEO of the collection has is left as it was, its NEO
    reference included. *)
Theorem constructor_links h (neos approaches : list loc) :
  neos_allocated h neos -> approaches_allocated h approaches ->
  exists h' db,
    NEODatabase_init h neos approaches = Ok (h', db)
    /\ (forall a ca pre n post o,
          a ∈ approaches -> neos = pre ++ n :: post ->
          approach_objects h !! a = Some ca -> neo_objects h !! n = Some o ->
          _designation ca = designation o ->
          (forall n', n' ∈ post ->
                      designation_of h n' <> Some (designation o)) ->
          exists ca' o',
            approach_objects h' !! a = Some ca' /\ neo ca' = Some n
            /\ neo_objects h' !! n = Some o'
            /\ (count_occ Pos.eq_dec approaches a = 1%nat ->
                a ∉ Models.approaches o ->
                count_occ Pos.eq_dec (Models.approaches o') a = 1%nat))
    /\ (forall a ca,
          approach_objects h !! a = Some ca ->
          (forall n, n ∈ neos -> designation_of h n <> Some (_designation ca)) ->
          approach_objects h' !! a = Some ca).
Proof.
  intros Hneos Happroaches.
  destruct (init_spec h neos approaches Hneos Happroaches)
    as (idx & nidx & h' & Hidx & _ & Hlink & Hinit).
  exists h', (mkDB neos approaches idx nidx). split; [done|].
  destruct (link_spec _ _ _ _ Hlink) as [_ Hcas]. split.
  - intros a ca pre n post o Ha Hsplit Hca Ho Hdes Hlast. subst neos.
    assert (idx !! _designation ca = Some n) as Hres.
    { rewrite Hdes.
      apply (designation_index_last h pre post n ∅ idx _ Hidx); [|done].
      unfold designation_of. by rewrite Ho. }
    destruct (link_count _ _ _ _ _ _ _ _ Hlink Hca Hres Ho) as (o' & Ho' & Hcount).
    exists (with_neo ca n), o'. repeat split; try done.
    + rewrite Hcas, Hca. simpl. rewrite bool_decide_eq_true_2 by done.
      unfold relink. by rewrite Hres.
    + intros Honce Hfresh. rewrite Hcount, Honce.
      rewrite (proj1 (count_occ_not_In Pos.eq_dec _ _)); [done|].
      intros Hin. apply Hfresh. by apply list_elem_of_In.
  - intros a ca Hca Hno. rewrite Hcas, Hca. simpl.
    destruct (bool_decide (a ∈ approaches)); [|done].
    unfold relink. by rewrite (designation_index_absent _ _ _ _ _ Hidx Hno).
Qed.

Lemma constructor_links_witness :
  exists h' db,
    NEODatabase_init Examples.fresh [Examples.n1; Examples.n2]
                     [Examples.a1; Examples.a2] = Ok (h', db)
    /\ (exists ca' o',
          approach_objects h' !! Examples.a1 = Some ca'
          /\ neo ca' = Some Examples.n2
          /\ neo_objects h' !! Examples.n2 = Some o'
          /\ count_occ Pos.eq_dec (Models.approaches o') Examples.a1 = 1%nat)
    /\ approach_objects h' !! Examples.a2 = Some Examples.ca_orphan.
Proof.
  destruct (constructor_links Examples.fresh [Examples.n1; Examples.n2]
              [Examples.a1; Examples.a2])
    as (h' & db & Hinit & Hlinked & Horphan); [allocated | allocated |].
  exists h', db. split; [exact Hinit|]. split.
  - destruct (Hlinked Examples.a1 Examples.ca_eros [Examples.n1] Examples.n2 []
                Examples.eros_twin)
      as (ca' & o' & Hca' & Hneo & Ho' & Hcount).
    + constructor.
    + reflexivity.
    + reflexivity.
    + reflexivity.
    + reflexivity.
    + intros n' Hn'. inversion Hn'.
    + exists ca', o'. repeat split; try assumption.
      apply Hcount; [reflexivity | intros Hin; inversion Hin].
  - apply (Horphan Examples.a2 Examples.ca_orphan); [reflexivity|].
    intros n Hn Hd.
    apply elem_of_cons in Hn as [-> | Hn]; [discriminate Hd|].
    apply elem_of_cons in Hn as [-> | Hn]; [discriminate Hd|].
    inversion Hn.
Defined.

(** C2, as the claim has it, fails in two ways. Two NEO objects with one
    designation: the approach is linked to the later one, so the earlier one
    is a NEO of the collection with the approach's designation that the
    approach is not linked to and whose list does not hold it. One approach
    object twice in the collection: it stands twice in the list of its NEO. *)
Lemma constructor_links_counterexample :
  (exists h' db,
      NEODatabase_init Examples.fresh [Examples.n1; Examples.n2] [Examples.a1]
      = Ok (h', db)
      /\ designation_of Examples.fresh Examples.n1 = Some "433"
      /\ _designation <$> approach_objects Examples.fresh !! Examples.a1
         = Some "433"
      /\ neo <$> approach_objects h' !! Examples.a1 = Some (Some Examples.n2)
      /\ Models.approaches <$> neo_objects h' !! Examples.n1 = Some [])
  /\ (exists h' db,
        NEODatabase_init Examples.fresh [Examples.n1]
                         [Examples.a1; Examples.a1] = Ok (h', db)
        /\ neo <$> approach_objects h' !! Examples.a1 = Some (Some Examples.n1)
        /\ Models.approaches <$> neo_objects h' !! Examples.n1
           = Some [Examples.a1; Examples.a1]).
Proof.
  split.
  - eexists _, _. split; [vm_compute; reflexivity|].
    repeat split; vm_compute; reflexivity.
  - eexists _, _. split; [vm_compute; reflexivity|].
    repeat split; vm_compute; reflexivity.
Qed.

(** C10. The constructor appends to the approach lists it finds. After a
    construction, every NEO object has its earlier list followed by the
    approaches matched to it; a second construction from the same objects
    returns, gives the same database and appends the same approaches once
    more: an approach that the database resolves to a NEO, occurring once in
    the collection and not in that NEO's list at the start, stands once in
    the list after the first construction and twice after the second. *)
Theorem second_construction_appends_again h (neos approaches : list loc) h1 db :
  NEODatabase_init h neos approaches = Ok (h1, db) ->
  exists h2,
    NEODatabase_init h1 neos approaches = Ok (h2, db)
    /\ (forall n o,
          neo_objects h !! n = Some o ->
          let matched :=
            List.filter (resolves (_designation_index db) h n) approaches in
          neo_objects h1 !! n = Some (extend o matched)
          /\ neo_objects h2 !! n = Some (extend (extend o matched) matched))
    /\ (forall a ca n o,
          approach_objects h !! a = Some ca -> neo_objects h !! n = Some o ->
          get_neo_by_designation db (_designation ca) = Some n ->
          count_occ Pos.eq_dec approaches a = 1%nat ->
          a ∉ Models.approaches o ->
          exists o1 o2,
            neo_objects h1 !! n = Some o1 /\ neo_objects h2 !! n = Some o2
            /\ count_occ Pos.eq_dec (Models.approaches o1) a = 1%nat
            /\ count_occ Pos.eq_dec (Models.approaches o2) a = 2%nat).
Proof.
  intros Hinit.
  destruct (init_inv _ _ _ _ _ Hinit) as (idx & nidx & -> & Hidx & Hnidx & Hlink).
  pose proof (designation_index_allocated _ _ _ _ Hidx) as Hneos.
  pose proof (link_allocated _ _ _ _ Hlink) as Happroaches.
  destruct (link_preserves _ _ _ _ Hlink)
    as (Hdes & Hname & Hres & Hneos1 & Happroaches1).
  destruct (init_spec h1 neos approaches (Hneos1 _ Hneos) (Happroaches1 _ Happroaches))
    as (idx' & nidx' & h2 & Hidx' & Hnidx' & Hlink' & Hinit').
  rewrite (designation_index_ext h h1 neos ∅ Hdes), Hidx in Hidx'.
  rewrite (name_index_ext h h1 neos ∅ Hname), Hnidx in Hnidx'.
  injection Hidx' as <-. injection Hnidx' as <-.
  destruct (link_spec _ _ _ _ Hlink) as [Hfirst _].
  destruct (link_spec _ _ _ _ Hlink') as [Hsecond _].
  assert (forall n o, neo_objects h !! n = Some o ->
            let matched := List.filter (resolves idx h n) approaches in
            neo_objects h1 !! n = Some (extend o matched)
            /\ neo_objects h2 !! n = Some (extend (extend o matched) matched))
    as Hboth.
  { intros n o Ho matched. split.
    - by rewrite Hfirst, Ho.
    - rewrite Hsecond, Hfirst, Ho. simpl. unfold matched.
      by rewrite (List.filter_ext _ _ (Hres n)). }
  exists h2. split; [done|]. split; [exact Hboth|].
  intros a ca n o Hca Ho Hn Honce Hfresh.
  destruct (Hboth n o Ho) as [H1 H2].
  eexists _, _. split; [exact H1|]. split; [exact H2|].
  assert (count_occ Pos.eq_dec (Models.approaches o) a = 0%nat) as Hzero.
  { apply count_occ_not_In. intros Hin. apply Hfresh. by apply list_elem_of_In. }
  assert (resolves idx h n a = true) as Hr.
  { unfold resolves. rewrite Hca. by apply bool_decide_eq_true_2. }
  simpl. rewrite !count_occ_app, count_occ_filter, Hr, Hzero, Honce. done.
Qed.

Lemma second_construction_appends_again_witness :
  exists h2,
    NEODatabase_init Examples.linked [Examples.n1; Examples.n3]
                     [Examples.a2; Examples.a3] = Ok (h2, Examples.linked_db)
    /\ (exists o1 o2,
          neo_objects Examples.linked !! Examples.n3 = Some o1
          /\ neo_objects h2 !! Examples.n3 = Some o2
          /\ count_occ Pos.eq_dec (Models.approaches o1) Examples.a3 = 1%nat
          /\ count_occ Pos.eq_dec (Models.approaches o2) Examples.a3 = 2%nat).
Proof.
  destruct (second_construction_appends_again Examples.fresh
              [Examples.n1; Examples.n3] [Examples.a2; Examples.a3]
              Examples.linked Examples.linked_db)
    as (h2 & Hinit2 & _ & Htwice); [vm_compute; reflexivity|].
  exists h2. split; [exact Hinit2|].
  apply (Htwice Examples.a3 Examples.ca_apophis Examples.n3 Examples.apophis).
  - reflexivity.
  - reflexivity.
  - reflexivity.
  - reflexivity.
  - intros Hin. inversion Hin.
Defined.

(** The same on the example data, evaluated: after two constructions the
    approach stands twice in the list of its NEO. *)
Example twice_linked :
  (r ← NEODatabase_init Examples.fresh [Examples.n1] [Examples.a1];
   r' ← NEODatabase_init r.1 [Examples.n1] [Examples.a1];
   Ok (Models.approaches <$> neo_objects r'.1 !! Examples.n1))
  = Ok (Some [Examples.a1; Examples.a1]).
Proof. vm_compute. reflexivity. Qed.

(** * Further properties of the code *)

(** ** Lookups in the database *)

Section NameIndexFacts.
Implicit Types (h : Heap) (neos : list loc) (acc idx : gmap string loc).

Lemma name_of_nonempty h n s : name_of h n = Some s -> s <> "".
Proof.
  unfold name_of. destruct (neo_objects h !! n) as [o|]; simpl; [|done].
  destruct (name o) as [t|]; simpl; [|done].
  destruct (String.eqb_spec t ""); simpl; [done|]. by intros [= <-].
Qed.

(** One round of the dict comprehension, told through [name_of]. *)
Lemma name_index_cons h n neos acc :
  name_index h (n :: neos) acc
  = match neo_objects h !! n with
    | Some _ =>
        match name_of h n with
        | Some s => name_index h neos (<[s := n]> acc)
        | None => name_index h neos acc
        end
    | None => Raise InvalidReference
    end.
Proof.
  simpl. unfold get_neo, name_of.
  destruct (neo_objects h !! n) as [o|]; simpl; [|done].
  destruct (name o) as [s|]; simpl; [|done].
  by destruct (negb (String.eqb s "")).
Qed.

Lemma name_index_lookup h neos acc idx s n :
  name_index h neos acc = Ok idx -> idx !! s = Some n ->
  (n ∈ neos /\ name_of h n = Some s) \/ acc !! s = Some n.
Proof.
  revert acc. induction neos as [|m neos IH]; intros acc.
  - simpl. intros [= <-]. by right.
  - rewrite name_index_cons.
    destruct (neo_objects h !! m) as [o|] eqn:Ho; [|done].
    destruct (name_of h m) as [t|] eqn:Ht; intros Hidx Hn;
      destruct (IH _ Hidx Hn) as [[Hin Hname] | Hacc].
    + left. split; [by right | done].
    + destruct (decide (t = s)) as [-> | Hne].
      * rewrite lookup_insert_eq in Hacc. injection Hacc as <-.
        left. split; [by left | done].
      * rewrite lookup_insert_ne in Hacc by done. by right.
    + left. split; [by right | done].
    + by right.
Qed.

Lemma name_index_absent h neos acc idx s :
  name_index h neos acc = Ok idx ->
  (forall n, n ∈ neos -> name_of h n <> Some s) ->
  idx !! s = acc !! s.
Proof.
  revert acc. induction neos as [|m neos IH]; intros acc.
  - simpl. by intros [= <-].
  - rewrite name_index_cons.
    destruct (neo_objects h !! m) as [o|] eqn:Ho; [|done].
    destruct (name_of h m) as [t|] eqn:Ht; intros Hidx Hno.
    + rewrite (IH _ Hidx).
      * apply lookup_insert_ne. intros ->. apply (Hno m); [by left | done].
      * intros n Hn. apply Hno. by right.
    + apply (IH _ Hidx). intros n Hn. apply Hno. by right.
Qed.

Lemma name_index_app h l1 l2 acc :
  name_index h (l1 ++ l2) acc = (idx ← name_index h l1 acc; name_index h l2 idx).
Proof.
  revert acc. induction l1 as [|m l1 IH]; intros acc; [done|].
  rewrite <- app_comm_cons, !name_index_cons.
  destruct (neo_objects h !! m); [|done].
  destruct (name_of h m); apply IH.
Qed.

Lemma name_index_last h pre post n acc idx s :
  name_index h (pre ++ n :: post) acc = Ok idx ->
  name_of h n = Some s ->
  (forall n', n' ∈ post -> name_of h n' <> Some s) ->
  idx !! s = Some n.
Proof.
  rewrite name_index_app.
  destruct (name_index h pre acc) as [idx1|]; simpl; [|done].
  change (name_index h (n :: post) idx1 = Ok idx -> name_of h n = Some s ->
          (forall n', n' ∈ post -> name_of h n' <> Some s) -> idx !! s = Some n).
  rewrite name_index_cons.
  destruct (neo_objects h !! n); [|done].
  intros Hidx Hs Hpost. rewrite Hs in Hidx.
  rewrite (name_index_absent _ _ _ _ _ Hidx Hpost). apply lookup_insert_eq.
Qed.
End NameIndexFacts.

(** X1. After a construction, [get_neo_by_designation] finds only NEOs of
    the collection, under their own designation; a designation that no NEO
    of the collection has gives [None]; and of several NEOs with one
    designation it gives the last of the collection. *)
Theorem get_neo_by_designation_spec h (neos approaches : list loc) h' db :
  NEODatabase_init h neos approaches = Ok (h', db) ->
  (forall d n,
      get_neo_by_designation db d = Some n ->
      n ∈ neos /\ designation_of h n = Some d /\ designation_of h' n = Some d)
  /\ (forall d,
        (forall n, n ∈ neos -> designation_of h n <> Some d) ->
        get_neo_by_designation db d = None)
  /\ (forall pre n post d,
        neos = pre ++ n :: post ->
        designation_of h n = Some d ->
        (forall n', n' ∈ post -> designation_of h n' <> Some d) ->
        get_neo_by_designation db d = Some n).
Proof.
  intros Hinit.
  destruct (init_inv _ _ _ _ _ Hinit) as (idx & nidx & -> & Hidx & _ & Hlink).
  destruct (link_preserves _ _ _ _ Hlink) as (Hdes & _).
  unfold get_neo_by_designation. simpl. repeat split.
  - by destruct (designation_index_lookup _ _ _ _ _ _ Hidx H) as [[? ?] | ?].
  - destruct (designation_index_lookup _ _ _ _ _ _ Hidx H) as [[? ?] | Habs];
      [done | by rewrite lookup_empty in Habs].
  - rewrite Hdes.
    destruct (designation_index_lookup _ _ _ _ _ _ Hidx H) as [[? ?] | Habs];
      [done | by rewrite lookup_empty in Habs].
  - intros d Hno. by rewrite (designation_index_absent _ _ _ _ _ Hidx Hno).
  - intros pre n post d -> Hd Hpost.
    by apply (designation_index_last _ _ _ _ _ _ _ Hidx Hd Hpost).
Qed.

Lemma get_neo_by_designation_spec_witness :
  get_neo_by_designation Examples.linked_db "99942" = Some Examples.n3
  /\ get_neo_by_designation Examples.linked_db "2020 AB" = None.
Proof.
  destruct (get_neo_by_designation_spec Examples.fresh
              [Examples.n1; Examples.n3] [Examples.a2; Examples.a3]
              Examples.linked Examples.linked_db) as (_ & Hmiss & Hlast);
    [vm_compute; reflexivity|].
  split.
  - apply (Hlast [Examples.n1] Examples.n3 []); [reflexivity | reflexivity |].
    intros n' Hn'. inversion Hn'.
  - apply Hmiss. intros n Hn Hd.
    apply elem_of_cons in Hn as [-> | Hn]; [discriminate Hd|].
    apply elem_of_cons in Hn as [-> | Hn]; [discriminate Hd|].
    inversion Hn.
Defined.

(** X2. After a construction, [get_neo_by_name] finds only NEOs of the
    collection, under their own non-empty name; the empty name and a name
    that no NEO of the collection has give [None]; and of several NEOs with
    one name it gives the last of the collection. *)
Theorem get_neo_by_name_spec h (neos approaches : list loc) h' db :
  NEODatabase_init h neos approaches = Ok (h', db) ->
  get_neo_by_name db "" = None
  /\ (forall s n,
        get_neo_by_name db s = Some n ->
        n ∈ neos /\ name_of h n = Some s /\ name_of h' n = Some s)
  /\ (forall s,
        (forall n, n ∈ neos -> name_of h n <> Some s) ->
        get_neo_by_name db s = None)
  /\ (forall pre n post s,
        neos = pre ++ n :: post ->
        name_of h n = Some s ->
        (forall n', n' ∈ post -> name_of h n' <> Some s) ->
        get_neo_by_name db s = Some n).
Proof.
  intros Hinit.
  destruct (init_inv _ _ _ _ _ Hinit) as (idx & nidx & -> & _ & Hnidx & Hlink).
  destruct (link_spec _ _ _ _ Hlink) as [Hneo _].
  unfold get_neo_by_name. simpl.
  assert (forall s n, nidx !! s = Some n -> n ∈ neos /\ name_of h n = Some s)
    as Hsound.
  { intros s n Hn.
    destruct (name_index_lookup _ _ _ _ _ _ Hnidx Hn) as [? | Habs];
      [done | by rewrite lookup_empty in Habs]. }
  assert (forall n, name_of h' n = name_of h n) as Hsame.
  { intros n. unfold name_of. rewrite Hneo.
    by destruct (neo_objects h !! n). }
  split; [|split; [|split]].
  - destruct (nidx !! "") as [n|] eqn:Hn; [|done].
    destruct (Hsound _ _ Hn) as [_ Hname].
    by apply name_of_nonempty in Hname.
  - intros s n Hn. destruct (Hsound _ _ Hn). by rewrite Hsame.
  - intros s Hno. by rewrite (name_index_absent _ _ _ _ _ Hnidx Hno).
  - intros pre n post s -> Hs Hpost.
    by apply (name_index_last _ _ _ _ _ _ _ Hnidx Hs Hpost).
Qed.

Lemma get_neo_by_name_spec_witness :
  get_neo_by_name Examples.linked_db "" = None
  /\ get_neo_by_name Examples.linked_db "Eros" = Some Examples.n1.
Proof.
  destruct (get_neo_by_name_spec Examples.fresh
              [Examples.n1; Examples.n3] [Examples.a2; Examples.a3]
              Examples.linked Examples.linked_db) as (Hempty & _ & _ & Hlast);
    [vm_compute; reflexivity|].
  split; [exact Hempty|].
  apply (Hlast [] Examples.n1 [Examples.n3]); [reflexivity | reflexivity |].
  intros n' Hn' Hname.
  apply elem_of_cons in Hn' as [-> | Hn']; [discriminate Hname|].
  inversion Hn'.
Defined.

(** ** What the constructor changes and what it leaves *)

Section FilterListFacts.
Implicit Types (p : loc -> bool) (l : list loc).

Lemma filter_sublist p l : sublist (List.filter p l) l.
Proof.
  induction l as [|a l IH]; simpl; [constructor|].
  destruct (p a); by constructor.
Qed.

Lemma elem_of_filter p l a : a ∈ List.filter p l <-> a ∈ l /\ p a = true.
Proof. rewrite !list_elem_of_In. apply filter_In. Qed.
End FilterListFacts.

(** X3. A construction keeps every object: of a NEO it changes nothing but
    the approach list, which it only extends at the end; of an approach
    nothing but the NEO reference, and nothing at all when the approach is
    not in the collection; it adds no object. The database holds the two
    collections as given. *)
Theorem constructor_frame h (neos approaches : list loc) h' db :
  NEODatabase_init h neos approaches = Ok (h', db) ->
  _neos db = neos /\ _approaches db = approaches
  /\ (forall n,
        match neo_objects h !! n, neo_objects h' !! n with
        | Some o, Some o' =>
            designation o' = designation o /\ name o' = name o
            /\ diameter o' = diameter o /\ hazardous o' = hazardous o
            /\ Models.approaches o `prefix_of` Models.approaches o'
        | None, None => True
        | _, _ => False
        end)
  /\ (forall a,
        match approach_objects h !! a, approach_objects h' !! a with
        | Some ca, Some ca' =>
            _designation ca' = _designation ca /\ time ca' = time ca
            /\ distance ca' = distance ca /\ velocity ca' = velocity ca
            /\ (a ∉ approaches -> ca' = ca)
        | None, None => True
        | _, _ => False
        end).
Proof.
  intros Hinit.
  destruct (init_inv _ _ _ _ _ Hinit) as (idx & nidx & -> & _ & _ & Hlink).
  destruct (link_spec _ _ _ _ Hlink) as [Hneo Hca].
  split; [done|]. split; [done|]. split.
  - intros n. rewrite Hneo. destruct (neo_objects h !! n) as [o|]; simpl; [|done].
    repeat split. by eexists.
  - intros a. rewrite Hca. destruct (approach_objects h !! a) as [ca|]; simpl; [|done].
    destruct (bool_decide_reflect (a ∈ approaches)) as [Hin | Hout].
    + unfold relink. destruct (idx !! _designation ca); by repeat split.
    + by repeat split.
Qed.

Lemma constructor_frame_witness :
  match neo_objects Examples.fresh !! Examples.n3,
        neo_objects Examples.linked !! Examples.n3 with
  | Some o, Some o' =>
      designation o' = designation o /\ name o' = name o
      /\ diameter o' = diameter o /\ hazardous o' = hazardous o
      /\ Models.approaches o `prefix_of` Models.approaches o'
  | None, None => True
  | _, _ => False
  end.
Proof.
  apply (constructor_frame Examples.fresh [Examples.n1; Examples.n3]
           [Examples.a2; Examples.a3] Examples.linked Examples.linked_db).
  vm_compute. reflexivity.
Defined.

(** X4. After a construction, every approach of the collection whose
    designation the database knows refers to the NEO found under that
    designation, that NEO has the approach's designation, and the approach
    is in the NEO's list. The items appended to a NEO's list are approaches
    of the collection that refer to this NEO, in the order of the
    collection; a list that was empty holds nothing else. *)
Theorem constructor_links_both_ways h (neos approaches : list loc) h' db :
  NEODatabase_init h neos approaches = Ok (h', db) ->
  (forall a ca' n,
      a ∈ approaches -> approach_objects h' !! a = Some ca' ->
      get_neo_by_designation db (_designation ca') = Some n ->
      neo ca' = Some n
      /\ exists o', neo_objects h' !! n = Some o'
                    /\ designation o' = _designation ca'
                    /\ a ∈ Models.approaches o')
  /\ (forall n o o',
        neo_objects h !! n = Some o -> neo_objects h' !! n = Some o' ->
        exists added,
          Models.approaches o' = Models.approaches o ++ added
          /\ sublist added approaches
          /\ (forall a, a ∈ added ->
                exists ca', approach_objects h' !! a = Some ca'
                            /\ neo ca' = Some n
                            /\ _designation ca' = designation o')).
Proof.
  intros Hinit.
  destruct (init_inv _ _ _ _ _ Hinit) as (idx & nidx & -> & Hidx & _ & Hlink).
  destruct (link_spec _ _ _ _ Hlink) as [Hneo Hca].
  unfold get_neo_by_designation. simpl. split.
  - intros a ca' n Ha Hca' Hn. rewrite Hca in Hca'.
    destruct (approach_objects h !! a) as [ca|] eqn:Hcaa; simpl in Hca'; [|done].
    rewrite bool_decide_eq_true_2 in Hca' by done. injection Hca' as <-.
    assert (_designation (relink idx ca) = _designation ca) as Hd.
    { unfold relink. by destruct (idx !! _designation ca). }
    rewrite Hd in *. unfold relink. rewrite Hn. split; [done|].
    destruct (designation_index_lookup _ _ _ _ _ _ Hidx Hn) as [[_ Hdes] | Habs];
      [|by rewrite lookup_empty in Habs].
    unfold designation_of in Hdes.
    destruct (neo_objects h !! n) as [o|] eqn:Ho; [|done].
    injection Hdes as Hdes. eexists. split; [by rewrite Hneo, Ho|].
    split; [done|]. simpl. apply elem_of_app. right.
    apply elem_of_filter. split; [done|].
    unfold resolves. rewrite Hcaa. by apply bool_decide_eq_true_2.
  - intros n o o' Ho Ho'. rewrite Hneo, Ho in Ho'. injection Ho' as <-.
    eexists. split; [reflexivity|]. split; [apply filter_sublist|].
    intros a [Ha Hr]%elem_of_filter. unfold resolves in Hr.
    destruct (approach_objects h !! a) as [ca|] eqn:Hcaa; [|done].
    apply bool_decide_eq_true_1 in Hr.
    eexists. split.
    { rewrite Hca, Hcaa. simpl. by rewrite bool_decide_eq_true_2 by done. }
    unfold relink. rewrite Hr. split; [done|]. simpl.
    destruct (designation_index_lookup _ _ _ _ _ _ Hidx Hr) as [[_ Hdes] | Habs];
      [|by rewrite lookup_empty in Habs].
    unfold designation_of in Hdes. rewrite Ho in Hdes. by injection Hdes.
Qed.

Lemma constructor_links_both_ways_witness :
  neo (with_neo Examples.ca_apophis Examples.n3) = Some Examples.n3
  /\ exists o', neo_objects Examples.linked !! Examples.n3 = Some o'
                /\ designation o' = "99942"
                /\ Examples.a3 ∈ Models.approaches o'.
Proof.
  apply (proj1 (constructor_links_both_ways Examples.fresh
                  [Examples.n1; Examples.n3] [Examples.a2; Examples.a3]
                  Examples.linked Examples.linked_db eq_refl)
           Examples.a3 (with_neo Examples.ca_apophis Examples.n3) Examples.n3).
  - apply elem_of_cons. right. apply elem_of_cons. by left.
  - reflexivity.
  - reflexivity.
Defined.

(** ** What a query yields *)

(** X5. A query is a chain of generator stages over the stored approaches,
    one stage per filter in the order of the collection, exceptions
    included. *)
Theorem query_is_pipeline h db (filters : list predicate) :
  query h db filters
  = foldl (fun s f => sfilter (f h) s) (iter (_approaches db)) filters.
Proof.
  unfold query. induction filters as [|f fs IH] using rev_ind.
  - apply query_from_nil.
  - by rewrite query_from_snoc, foldl_app, IH.
Qed.

Lemma query_from_yields h (l : list loc) (fs : list predicate) :
  exists pre post,
    l = pre ++ post
    /\ Forall (fun a => fails fs h a = None) pre
    /\ yields (query_from h l fs) = List.filter (passes fs h) pre
    /\ match raised (query_from h l fs) with
       | None => post = []
       | Some e => exists a post', post = a :: post' /\ fails fs h a = Some e
       end.
Proof.
  induction l as [|a l (pre & post & -> & Hpre & Hy & Hr)]; simpl.
  - by exists [], [].
  - destruct (all fs h a) as [b|e] eqn:Hall.
    + exists (a :: pre), post. split; [done|]. split.
      { constructor; [|done]. unfold fails. by rewrite Hall. }
      unfold passes at 1. simpl. rewrite Hall. destruct b; simpl; by rewrite ?Hy.
    + exists [], (a :: pre ++ post). repeat split; [constructor|].
      exists a, (pre ++ post). split; [done|]. unfold fails. by rewrite Hall.
Qed.

(** What a query yields has answered true to every filter. *)
Lemma query_yields_passing_aux h db (filters : list predicate) :
  Forall (fun a => Forall (fun f => f h a = Ok true) filters)
         (yields (query h db filters)).
Proof.
  unfold query.
  destruct (query_from_yields h (_approaches db) filters)
    as (pre & post & Heq & Hpre & Hy & Hr).
  rewrite Hy. apply Forall_forall. intros a [_ Hp]%elem_of_filter.
  apply all_true_iff. unfold passes in Hp.
  by destruct (all filters h a) as [[|]|].
Qed.

(** X6. A query yields, in the order of the stored approaches, those that
    pass every filter, up to the first approach on which the filters raise:
    the query then ends with that exception; if there is no such approach
    it yields every passing approach and ends normally. What it yields has
    answered true to every filter. *)
Theorem query_yields_passing h db (filters : list predicate) :
  (exists pre post,
      _approaches db = pre ++ post
      /\ Forall (fun a => fails filters h a = None) pre
      /\ yields (query h db filters) = List.filter (passes filters h) pre
      /\ match raised (query h db filters) with
         | None => post = []
         | Some e => exists a post', post = a :: post'
                                     /\ fails filters h a = Some e
         end)
  /\ sublist (yields (query h db filters)) (_approaches db)
  /\ Forall (fun a => Forall (fun f => f h a = Ok true) filters)
            (yields (query h db filters)).
Proof.
  unfold query.
  destruct (query_from_yields h (_approaches db) filters)
    as (pre & post & Heq & Hpre & Hy & Hr).
  split; [by exists pre, post|]. rewrite Hy, Heq. split.
  - etrans; [apply filter_sublist | by apply sublist_inserts_r].
  - apply Forall_forall. intros a [_ Hp]%elem_of_filter.
    apply all_true_iff. unfold passes in Hp.
    by destruct (all filters h a) as [[|]|].
Qed.

(** ** The filter factory and the date filters *)

Section FactoryOrder.
Implicit Types (h : Heap) (a : loc) (fs gs : list predicate).

Lemma guarded_append_when (b : bool) (l : list AttributeFilter) f :
  (if b then l ++ [f] else l) = l ++ when b f.
Proof. destruct b; simpl; [done | by rewrite app_nil_r]. Qed.

(** The factory's result, written as one concatenation. *)
Lemma create_filters_concat d sd ed dn dx vn vx an ax hz :
  create_filters d sd ed dn dx vn vx an ax hz
  = when (truthy d) (mkFilter DateFilter Py.eq d)
    ++ when (truthy sd) (mkFilter DateFilter Py.ge sd)
    ++ when (truthy ed) (mkFilter DateFilter Py.le ed)
    ++ when (truthy dn) (mkFilter DistanceFilter Py.ge dn)
    ++ when (truthy dx) (mkFilter DistanceFilter Py.le dx)
    ++ when (truthy vn) (mkFilter VelocityFilter Py.ge vn)
    ++ when (truthy vx) (mkFilter VelocityFilter Py.le vx)
    ++ when (truthy an) (mkFilter DiameterFilter Py.ge an)
    ++ when (truthy ax) (mkFilter DiameterFilter Py.le ax)
    ++ when (is_not_None hz) (mkFilter HazardousFilter Py.eq hz).
Proof.
  unfold create_filters. rewrite !guarded_append_when. simpl.
  by rewrite <- !app_assoc.
Qed.

Lemma all_app fs gs h a :
  all (fs ++ gs) h a
  = match all fs h a with
    | Ok true => all gs h a
    | r => r
    end.
Proof.
  induction fs as [|f fs IH]; simpl; [done|].
  destruct (f h a) as [[|]|]; simpl; by rewrite ?IH.
Qed.

Lemma query_from_ext fs gs h (l : list loc) :
  (forall a, all fs h a = all gs h a) ->
  query_from h l fs = query_from h l gs.
Proof.
  intros Hext. induction l as [|a l IH]; simpl; [done|].
  by rewrite Hext, IH.
Qed.

(** Filters that answer, one of them false: the conjunction is false. *)
Lemma all_false fs h a :
  Forall (fun f => is_Ok (f h a)) fs ->
  Exists (fun f => f h a = Ok false) fs ->
  all fs h a = Ok false.
Proof.
  induction 1 as [|f fs [b Hf] _ IH]; intros Hex; [by inversion Hex|].
  simpl. rewrite Hf. simpl. destruct b; [|done].
  apply IH. inversion Hex as [? ? Hfalse | ]; [congruence | done].
Qed.

Lemma date_compare_eq x y : date_compare x y = Eq <-> x = y.
Proof.
  destruct x as [y1 m1 d1], y as [y2 m2 d2]. unfold date_compare. simpl.
  split.
  - destruct (Z.compare_spec y1 y2) as [-> | |]; try done.
    destruct (Z.compare_spec m1 m2) as [-> | |]; try done.
    by intros ->%Z.compare_eq.
  - intros [= -> -> ->]. by rewrite !Z.compare_refl.
Qed.

(** The exact-date filter against the start and end filters at one date. *)
Lemma date_eq_is_ge_and_le d h a :
  all [call (mkFilter DateFilter Py.eq (VDate d))] h a
  = all [call (mkFilter DateFilter Py.ge (VDate d));
         call (mkFilter DateFilter Py.le (VDate d))] h a.
Proof.
  simpl. unfold call. simpl.
  destruct (get_approach h a) as [ca|]; simpl; [|done].
  destruct (time ca) as [t|]; simpl; [|done].
  unfold Py.eq, Py.ge, Py.le. simpl.
  by destruct (date_compare (dt_date t) d).
Qed.
End FactoryOrder.

(** X7. Asking for an exact date is asking for that date as start and as
    end: with the other arguments the same, the two queries are the same
    stream, exceptions included. *)
Theorem exact_date_is_start_and_end h db d dn dx vn vx an ax hz :
  query h db (call <$> create_filters (VDate d) VNone VNone dn dx vn vx an ax hz)
  = query h db (call <$> create_filters VNone (VDate d) (VDate d)
                                        dn dx vn vx an ax hz).
Proof.
  apply query_from_ext. intros a. rewrite !create_filters_concat. simpl.
  set (rest := when (truthy dn) _ ++ _).
  change (all ([call (mkFilter DateFilter Py.eq (VDate d))] ++ (call <$> rest)) h a
          = all ([call (mkFilter DateFilter Py.ge (VDate d));
                  call (mkFilter DateFilter Py.le (VDate d))] ++ (call <$> rest))
                h a).
  by rewrite !all_app, date_eq_is_ge_and_le.
Qed.

(** X8. A date filter reads the calendar date of the approach only: with
    equality it answers true exactly on the approaches of that date,
    whatever the time of day, and any date filter answers the same on two
    approaches of one date. *)
Theorem date_filter_ignores_time h a ca t :
  get_approach h a = Ok ca -> time ca = Some t ->
  (forall d, exists b,
      call (mkFilter DateFilter Py.eq (VDate d)) h a = Ok b
      /\ (b = true <-> dt_date t = d))
  /\ (forall a' ca' t' op v,
        get_approach h a' = Ok ca' -> time ca' = Some t' ->
        dt_date t' = dt_date t ->
        call (mkFilter DateFilter op v) h a' = call (mkFilter DateFilter op v) h a).
Proof.
  intros Ha Ht. split.
  - intros d. unfold call. simpl. rewrite Ha. simpl. rewrite Ht. simpl.
    unfold Py.eq. simpl.
    destruct (date_compare (dt_date t) d) eqn:Hc; eexists; (split; [done|]);
      rewrite <- date_compare_eq, Hc; done.
  - intros a' ca' t' op v Ha' Ht' Hd. unfold call. simpl.
    rewrite Ha, Ha'. simpl. by rewrite Ht, Ht', Hd.
Qed.

Lemma date_filter_ignores_time_witness :
  exists b,
    call (mkFilter DateFilter Py.eq (VDate (Date 2020 1 2)))
         Examples.fresh Examples.a2 = Ok b
    /\ (b = true <-> dt_date (Examples.noon 2020 1 2) = Date 2020 1 2).
Proof.
  apply (proj1 (date_filter_ignores_time Examples.fresh Examples.a2
                  Examples.ca_orphan (Examples.noon 2020 1 2)
                  eq_refl eq_refl)).
Defined.

Section FactorySplit.
Implicit Types (f : AttributeFilter) (P : AttributeFilter -> Prop).

Lemma Forall_when P (b : bool) f : P f -> Forall P (when b f).
Proof. intros Hf. destruct b; simpl; by repeat constructor. Qed.

(** The filters that read the NEO come last in what the factory returns. *)
Lemma create_filters_split d sd ed dn dx vn vx an ax hz :
  exists front back,
    create_filters d sd ed dn dx vn vx an ax hz = front ++ back
    /\ Forall reads_approach front /\ Forall reads_neo back.
Proof.
  rewrite create_filters_concat.
  exists (when (truthy d) (mkFilter DateFilter Py.eq d)
          ++ when (truthy sd) (mkFilter DateFilter Py.ge sd)
          ++ when (truthy ed) (mkFilter DateFilter Py.le ed)
          ++ when (truthy dn) (mkFilter DistanceFilter Py.ge dn)
          ++ when (truthy dx) (mkFilter DistanceFilter Py.le dx)
          ++ when (truthy vn) (mkFilter VelocityFilter Py.ge vn)
          ++ when (truthy vx) (mkFilter VelocityFilter Py.le vx)),
         (when (truthy an) (mkFilter DiameterFilter Py.ge an)
          ++ when (truthy ax) (mkFilter DiameterFilter Py.le ax)
          ++ when (is_not_None hz) (mkFilter HazardousFilter Py.eq hz)).
  split; [by rewrite <- !app_assoc|]. split.
  - repeat (apply Forall_app_2; [apply Forall_when; unfold reads_approach; simpl; auto|]).
    apply Forall_when. unfold reads_approach. simpl. auto.
  - repeat (apply Forall_app_2; [apply Forall_when; unfold reads_neo; simpl; auto|]).
    apply Forall_when. unfold reads_neo. simpl. auto.
Qed.

Lemma reads_neo_not_approach f : reads_neo f -> reads_approach f -> False.
Proof. intros [Hn | Hn] [Ha | [Ha | Ha]]; congruence. Qed.
End FactorySplit.

(** X9. The factory puts the filters that read the NEO after those that
    read the approach alone. So an approach, with or without a NEO, that
    one of the date, distance or velocity filters rejects is rejected
    without an exception, as long as those filters themselves answer on
    it: the diameter and hazardous filters are not evaluated. *)
Theorem create_filters_guard_neo_filters d sd ed dn dx vn vx an ax hz h a :
  let filters := create_filters d sd ed dn dx vn vx an ax hz in
  Forall (fun f => reads_approach f -> is_Ok (call f h a)) filters ->
  Exists (fun f => reads_approach f /\ call f h a = Ok false) filters ->
  all (call <$> filters) h a = Ok false.
Proof.
  intros filters Hok Hex. unfold filters in *.
  destruct (create_filters_split d sd ed dn dx vn vx an ax hz)
    as (front & back & Heq & Hfront & Hback).
  rewrite Heq in Hok, Hex |- *. rewrite fmap_app, all_app.
  apply Forall_app in Hok as [Hok _].
  apply Exists_app in Hex as [Hex | Hex].
  - rewrite (all_false (call <$> front) h a); [done | |].
    + apply Forall_fmap. rewrite Forall_forall in Hok, Hfront |- *.
      intros f Hf. apply Hok; [done | by apply Hfront].
    + apply Exists_fmap. apply Exists_exists in Hex as (f & Hf & _ & Hfalse).
      apply Exists_exists. by exists f.
  - apply Exists_exists in Hex as (f & Hf & Hra & _).
    rewrite Forall_forall in Hback.
    destruct (reads_neo_not_approach f (Hback f Hf) Hra).
Qed.

Lemma create_filters_guard_neo_filters_witness :
  all (call <$> create_filters VNone VNone VNone VNone
                               (VFloat (Examples.dyadic 1 (-2)))
                               VNone VNone VNone VNone (VBool true))
      Examples.fresh Examples.a2
  = Ok false.
Proof.
  apply (create_filters_guard_neo_filters VNone VNone VNone VNone
           (VFloat (Examples.dyadic 1 (-2))) VNone VNone VNone VNone
           (VBool true) Examples.fresh Examples.a2).
  - repeat constructor; intros [Hc | [Hc | Hc]]; try discriminate Hc.
    by eexists.
  - constructor. split; [right; by left | reflexivity].
Defined.

(** ** The limiter *)

Section LimitFacts.
Context {A : Type}.
Implicit Types (s : stream A) (n m : nat).

(** The generator expression of [limit] takes the first steps of its input. *)
Lemma zip_stake {B} (r : list B) s : smap snd (zip r s) = stake (length r) s.
Proof.
  revert s. induction r as [|i r IH]; intros [|e|a s]; simpl; try done.
  by rewrite IH.
Qed.

Lemma limit_stake s z : 0 < z -> limit s (VInt z) = Ok (stake (Z.to_nat z) s).
Proof. intros Hz. by rewrite (limit_positive s z Hz), zip_stake, length_range. Qed.

Lemma stake_stake n m s : stake n (stake m s) = stake (n `min` m)%nat s.
Proof.
  revert m s. induction n as [|n IH]; intros [|m] [|e|a s]; simpl; try done.
  by rewrite IH.
Qed.

Lemma yields_stake n s : yields (stake n s) = take n (yields s).
Proof.
  revert s. induction n as [|n IH]; intros [|e|a s]; simpl; try done.
  by rewrite IH.
Qed.

Lemma raised_stake_enough n s :
  (n <= length (yields s))%nat -> raised (stake n s) = None.
Proof.
  revert s. induction n as [|n IH]; intros [|e|a s]; simpl; try done; try lia.
  intros Hn. apply IH. lia.
Qed.

Lemma stake_short n s : (length (yields s) < n)%nat -> stake n s = s.
Proof.
  revert s. induction n as [|n IH]; intros [|e|a s]; simpl; try done; try lia.
  intros Hn. rewrite IH; [done | lia].
Qed.
End LimitFacts.

(** X10. [limit] with a positive maximum asks its input for no more than
    that many items: when the input yields at least that many, the limited
    stream ends normally whatever the input does afterwards, an exception
    included; when the input ends earlier, the limited stream is the input
    itself, with its own ending. *)
Theorem limit_stops_early {A : Type} (s : stream A) (n : Z) :
  0 < n ->
  exists s',
    limit s (VInt n) = Ok s'
    /\ ((Z.to_nat n <= length (yields s))%nat ->
        raised s' = None /\ yields s' = take (Z.to_nat n) (yields s))
    /\ ((length (yields s) < Z.to_nat n)%nat -> s' = s).
Proof.
  intros Hn. exists (stake (Z.to_nat n) s). split; [by apply limit_stake|]. split.
  - intros Hlen. split; [by apply raised_stake_enough | apply yields_stake].
  - apply stake_short.
Qed.

Lemma limit_stops_early_witness :
  exists s',
    limit (SYield 1 (SYield 2 (SRaise AttributeError))) (VInt 2) = Ok s'
    /\ raised s' = None /\ yields s' = [1; 2].
Proof.
  destruct (limit_stops_early (SYield 1 (SYield 2 (SRaise AttributeError))) 2)
    as (s' & Hs' & Henough & _); [lia|].
  exists s'. split; [exact Hs'|]. apply Henough. simpl. lia.
Defined.

(** X11. The other maxima: a negative integer gives the empty stream;
    [True] gives the first step of the input; a float other than zero, and
    a date, raise [TypeError] when [limit] is called. *)
Theorem limit_other_maxima {A : Type} (s : stream A) :
  (forall n, n < 0 -> limit s (VInt n) = Ok SDone)
  /\ limit s (VBool true) = Ok (stake 1 s)
  /\ (forall f, truthy (VFloat f) = true -> limit s (VFloat f) = Raise TypeError)
  /\ (forall d, limit s (VDate d) = Raise TypeError).
Proof.
  repeat split.
  - intros n Hn. unfold limit. simpl.
    destruct (Z.eqb_spec n 0) as [-> | _]; [lia|]. simpl.
    unfold range. by destruct n.
  - unfold limit. simpl. by destruct s.
  - intros f Hf. unfold limit. by rewrite Hf.
Qed.

Lemma limit_other_maxima_witness :
  limit (iter [1; 2; 3]) (VInt (-1)) = Ok SDone
  /\ limit (iter [1; 2; 3]) (VFloat (Examples.dyadic 3 0)) = Raise TypeError.
Proof.
  split.
  - apply (proj1 (limit_other_maxima (iter [1; 2; 3]))). lia.
  - apply (proj1 (proj2 (proj2 (limit_other_maxima (iter [1; 2; 3]))))).
    reflexivity.
Defined.

(** X12. Limiting twice is limiting once, to the smaller maximum. *)
Theorem limit_limit {A : Type} (s : stream A) (m n : Z) :
  0 < m -> 0 < n ->
  (s' ← limit s (VInt m); limit s' (VInt n)) = limit s (VInt (Z.min m n)).
Proof.
  intros Hm Hn. rewrite (limit_stake s m Hm). simpl.
  rewrite (limit_stake _ n Hn), limit_stake by lia.
  rewrite stake_stake. do 2 f_equal. lia.
Qed.

Lemma limit_limit_witness :
  (s' ← limit (iter [1; 2; 3; 4; 5]) (VInt 4); limit s' (VInt 2))
  = limit (iter [1; 2; 3; 4; 5]) (VInt 2).
Proof. apply (limit_limit (iter [1; 2; 3; 4; 5]) 4 2); lia. Defined.

(** ** The entity constructors and the derived fields *)

(** X13. The full name of a constructed NEO is its designation alone when
    it was given no name or the empty name, and the designation followed by
    the name in parentheses otherwise; a constructed NEO never carries the
    empty name, and starts with no approaches. *)
Theorem fullname_of_constructed des nm d hz o :
  NearEarthObject_init des nm d hz = Ok o ->
  fullname o = match nm with
               | Some s => if String.eqb s "" then des
                           else des +:+ " (" +:+ s +:+ ")"
               | None => des
               end
  /\ name o <> Some "" /\ designation o = des /\ hazardous o = hz
  /\ Models.approaches o = [].
Proof.
  unfold NearEarthObject_init.
  destruct (if truthy d then to_float d else Ok nan) as [x|]; simpl; [|done].
  intros [= <-]. unfold fullname. simpl.
  destruct nm as [s|]; simpl; [|done].
  destruct (String.eqb_spec s "") as [-> | Hs]; simpl; [done|].
  destruct (String.eqb_spec s ""); [done|]. repeat split. congruence.
Qed.

Lemma fullname_of_constructed_witness :
  fullname Examples.eros = "433 (Eros)".
Proof.
  apply (fullname_of_constructed "433" (Some "Eros")
           (VFloat (Examples.dyadic 33 (-1))) false Examples.eros).
  reflexivity.
Defined.

(** X14. Given a float as diameter, the constructor never fails and never
    stores a zero: it stores the float itself unless that is zero (of
    either sign), and not-a-number then; the same with no diameter at all.
    Given anything, it fails only where [float] of the diameter fails. *)
Theorem constructed_diameter des nm hz :
  (forall f, exists o,
      NearEarthObject_init des nm (VFloat f) hz = Ok o
      /\ diameter o = (if SFeqb f (S754_zero false) then nan else f)
      /\ SFeqb (diameter o) (S754_zero false) = false)
  /\ (exists o, NearEarthObject_init des nm VNone hz = Ok o /\ diameter o = nan)
  /\ (forall d e, NearEarthObject_init des nm d hz = Raise e ->
                  truthy d = true /\ to_float d = Raise e).
Proof.
  split; [|split].
  - intros f. unfold NearEarthObject_init. simpl.
    destruct (SFeqb f (S754_zero false)) eqn:Hz; simpl; eexists; by repeat split.
  - by eexists.
  - intros d e. unfold NearEarthObject_init.
    destruct (truthy d); simpl; [|done].
    destruct (to_float d); simpl; [done|]. by intros [= ->].
Qed.

Lemma constructed_diameter_witness :
  truthy (VDate (Date 2020 1 1)) = true
  /\ to_float (VDate (Date 2020 1 1)) = Raise TypeError.
Proof.
  apply (proj2 (proj2 (constructed_diameter "433" None false))
           (VDate (Date 2020 1 1)) TypeError).
  reflexivity.
Defined.

(** X15. A close approach constructed without a time, or with the empty
    time text, is constructed without asking the time parser, holds no
    time, and makes every date filter raise [AttributeError]; the distance
    and velocity it holds are [float] of the arguments. *)
Theorem approach_without_time cd des t d v :
  truthy_str t = false ->
  CloseApproach_init cd des t d v
  = (x ← to_float d; y ← to_float v; Ok (mkCA des None x y None))
  /\ (forall ca h a op ref,
        CloseApproach_init cd des t d v = Ok ca ->
        get_approach h a = Ok ca ->
        call (mkFilter DateFilter op ref) h a = Raise AttributeError).
Proof.
  intros Ht.
  assert (CloseApproach_init cd des t d v
          = (x ← to_float d; y ← to_float v; Ok (mkCA des None x y None))) as Hinit.
  { unfold CloseApproach_init. destruct t as [s|]; [|done]. by rewrite Ht. }
  split; [done|]. intros ca h a op ref Hca Ha. rewrite Hinit in Hca.
  destruct (to_float d); simpl in Hca; [|done].
  destruct (to_float v); simpl in Hca; [|done]. injection Hca as <-.
  unfold call. simpl. by rewrite Ha.
Qed.

Lemma approach_without_time_witness :
  CloseApproach_init (fun _ => Raise TypeError) "433" (Some "")
                     (VFloat (Examples.dyadic 1 (-3))) (VInt 5)
  = Ok (mkCA "433" None (Examples.dyadic 1 (-3)) (Examples.dyadic 5 0) None).
Proof.
  exact (proj1 (approach_without_time (fun _ => Raise TypeError) "433"
                  (Some "") (VFloat (Examples.dyadic 1 (-3))) (VInt 5)
                  eq_refl)).
Defined.

(** ** The writers *)

Section WriterFacts.
Variable datetime_to_str : option datetime -> result string.
Implicit Types (h : Heap) (a : loc) (results : stream loc).

(** The two dicts built for one approach: built or not together, with the
    same exception, and with the same data under the same keys. *)
Lemma row_and_item h a :
  match csv_row datetime_to_str h a, json_item datetime_to_str h a with
  | Ok r, Ok item => flatten item = r /\ r.*1 = fieldnames
  | Raise e, Raise e' => e = e'
  | _, _ => False
  end.
Proof.
  unfold csv_row, json_item, time_str, neo_attr.
  destruct (get_approach h a) as [ca|]; simpl; [|done].
  destruct (datetime_to_str (time ca)); simpl; [|done].
  destruct (neo ca) as [n|]; simpl; [|done].
  by destruct (get_neo h n).
Qed.

Lemma csv_row_orphan h a ca t :
  get_approach h a = Ok ca -> datetime_to_str (time ca) = Ok t ->
  neo ca = None ->
  csv_row datetime_to_str h a = Raise AttributeError.
Proof.
  intros Ha Ht Hn. unfold csv_row, time_str, neo_attr.
  rewrite Ha. simpl. rewrite Ht. simpl. by rewrite Hn.
Qed.

Lemma writers_related h results :
  match writerows datetime_to_str h results,
        json_output datetime_to_str h results with
  | (rs, None), Ok items =>
      flatten <$> items = rs /\ length items = length (yields results)
      /\ raised results = None
  | (_, Some e), Raise e' => e = e'
  | _, _ => False
  end
  /\ Forall (fun r => r.*1 = fieldnames) (writerows datetime_to_str h results).1.
Proof.
  induction results as [|e|a rest IH0]; simpl; [done | done |].
  destruct IH0 as [IHrel IHkeys].
  pose proof (row_and_item h a) as Hrow.
  destruct (csv_row datetime_to_str h a) as [r|],
           (json_item datetime_to_str h a) as [item|]; simpl; try done.
  destruct Hrow as [Hflat Hkeys].
  destruct (writerows datetime_to_str h rest) as [rs [e|]],
           (json_output datetime_to_str h rest) as [items|]; simpl in *;
    try done; (split; [|by constructor]); try done.
  destruct IHrel as (<- & -> & ->). by rewrite Hflat.
Qed.

Lemma writerows_until_failure h pre a post e :
  Forall (fun x => is_Ok (csv_row datetime_to_str h x)) pre ->
  csv_row datetime_to_str h a = Raise e ->
  exists rs,
    writerows datetime_to_str h (iter (pre ++ a :: post)) = (rs, Some e)
    /\ Forall2 (fun x r => csv_row datetime_to_str h x = Ok r) pre rs.
Proof.
  intros Hpre Ha. induction Hpre as [|x pre [r Hx] _ (rs & IH & Hrows)]; simpl.
  - rewrite Ha. exists []. split; [done | constructor].
  - rewrite Hx, IH. exists (r :: rs). split; [done | by constructor].
Qed.

(** The rows written are the rows of the results, one by one from the
    first; all results have their row when the loop ends normally. *)
Lemma writerows_rows h results :
  Forall2 (fun a r => csv_row datetime_to_str h a = Ok r)
          (take (length (writerows datetime_to_str h results).1) (yields results))
          (writerows datetime_to_str h results).1
  /\ ((writerows datetime_to_str h results).2 = None ->
      length (writerows datetime_to_str h results).1 = length (yields results)).
Proof.
  induction results as [|e|a rest IH0]; simpl; [by split; [constructor|] | done |].
  destruct IH0 as [IHrows IHlen].
  destruct (csv_row datetime_to_str h a) as [r|] eqn:Hrow; simpl; [|done].
  destruct (writerows datetime_to_str h rest) as [rs e]; simpl in *.
  split; [by constructor|]. intros He. by rewrite (IHlen He).
Qed.

(** Where the loop ends with an exception: at the first result that has
    no row, or where the results themselves raise. *)
Lemma writerows_end h results e :
  (writerows datetime_to_str h results).2 = Some e ->
  match yields results !! length (writerows datetime_to_str h results).1 with
  | Some a => csv_row datetime_to_str h a = Raise e
  | None => raised results = Some e
  end.
Proof.
  induction results as [|e'|a rest IH]; simpl; [done | done |].
  destruct (csv_row datetime_to_str h a) as [r|] eqn:Hrow; simpl;
    [|by intros [= <-]].
  destruct (writerows datetime_to_str h rest) as [rs e']; simpl in *. exact IH.
Qed.

(** The items collected are the items of the results, one by one. *)
Lemma json_output_items h results items :
  json_output datetime_to_str h results = Ok items ->
  Forall2 (fun a item => json_item datetime_to_str h a = Ok item)
          (yields results) items.
Proof.
  revert items. induction results as [|e|a rest IH]; intros items; simpl.
  - intros [= <-]. constructor.
  - done.
  - destruct (json_item datetime_to_str h a) as [item|] eqn:Hitem; simpl; [|done].
    destruct (json_output datetime_to_str h rest) as [items'|]; simpl; [|done].
    intros [= <-]. constructor; [done | by apply IH].
Qed.
End WriterFacts.

(** X16. The two writers build their output from the same results in the
    same way. The rows in the CSV file are the rows of the results, one by
    one from the first, under the header and with the header's columns as
    keys in order. Where [write_to_json] produces a list, its items are the
    items of the results, one by one in order, [write_to_csv] ends without
    exception having written the row of every result, and each row holds
    the data of the item at its place, the inner dict of the NEO spliced
    in; where one raises, the other raises the same exception. *)
Theorem writers_agree datetime_to_str h results :
  header (write_to_csv datetime_to_str h results).1 = fieldnames
  /\ Forall (fun r => r.*1 = fieldnames)
            (rows (write_to_csv datetime_to_str h results).1)
  /\ Forall2 (fun a r => csv_row datetime_to_str h a = Ok r)
             (take (length (rows (write_to_csv datetime_to_str h results).1))
                   (yields results))
             (rows (write_to_csv datetime_to_str h results).1)
  /\ match write_to_json datetime_to_str h results with
     | Ok items =>
         (write_to_csv datetime_to_str h results).2 = None
         /\ Forall2 (fun a item => json_item datetime_to_str h a = Ok item)
                    (yields results) items
         /\ Forall2 (fun a r => csv_row datetime_to_str h a = Ok r)
                    (yields results)
                    (rows (write_to_csv datetime_to_str h results).1)
         /\ flatten <$> items = rows (write_to_csv datetime_to_str h results).1
         /\ length items = length (yields results)
         /\ raised results = None
     | Raise e =>
         (write_to_csv datetime_to_str h results).2 = Some e
         /\ match yields results
                  !! length (rows (write_to_csv datetime_to_str h results).1) with
            | Some a => csv_row datetime_to_str h a = Raise e
            | None => raised results = Some e
            end
     end.
Proof.
  unfold write_to_csv, write_to_json.
  destruct (writers_related datetime_to_str h results) as [Hrel Hkeys].
  destruct (writerows_rows datetime_to_str h results) as [Hrows Hlen].
  pose proof (json_output_items datetime_to_str h results) as Hitems.
  pose proof (writerows_end datetime_to_str h results) as Hend.
  destruct (writerows datetime_to_str h results) as [rs [e|]],
           (json_output datetime_to_str h results) as [items|]; simpl in *;
    try done.
  - split; [done|]. split; [done|]. split; [done|]. subst.
    split; [done | by apply Hend].
  - destruct Hrel as (Hflat & Hcount & Hraised).
    split; [done|]. split; [done|]. split; [done|].
    split; [done|]. split; [by apply Hitems|]. split; [|done].
    specialize (Hlen eq_refl). rewrite Hlen in Hrows.
    by rewrite firstn_all in Hrows.
Qed.

(** X17. When a result cannot be turned into a row, because it is an
    approach without a NEO or for another reason, [write_to_csv] has by
    then opened the file and written the header and, one by one in order,
    the rows of the results before it, and the exception escapes;
    [write_to_json] raises the same exception and writes nothing. An
    approach without a NEO whose time can be formatted gives
    [AttributeError]. *)
Theorem writers_on_failure datetime_to_str h pre a post e :
  Forall (fun x => is_Ok (csv_row datetime_to_str h x)) pre ->
  csv_row datetime_to_str h a = Raise e ->
  (exists rs,
      write_to_csv datetime_to_str h (iter (pre ++ a :: post))
      = (mkCsv fieldnames rs, Some e)
      /\ Forall2 (fun x r => csv_row datetime_to_str h x = Ok r) pre rs
      /\ length rs = length pre)
  /\ write_to_json datetime_to_str h (iter (pre ++ a :: post)) = Raise e
  /\ (forall ca t,
        get_approach h a = Ok ca -> datetime_to_str (time ca) = Ok t ->
        neo ca = None -> e = AttributeError).
Proof.
  intros Hpre Ha.
  destruct (writerows_until_failure datetime_to_str h pre a post e Hpre Ha)
    as (rs & Hrs & Hrows).
  split; [|split].
  - exists rs. unfold write_to_csv. rewrite Hrs. split; [done|].
    split; [done|]. symmetry. by eapply Forall2_length.
  - pose proof (writers_related datetime_to_str h (iter (pre ++ a :: post)))
      as [Hjson _].
    rewrite Hrs in Hjson. unfold write_to_json.
    destruct (json_output _ _ _); [done | by rewrite Hjson].
  - intros ca t Hca Ht Hn.
    rewrite (csv_row_orphan datetime_to_str h a ca t Hca Ht Hn) in Ha.
    by injection Ha.
Qed.

Lemma writers_on_failure_witness :
  (exists rs,
      write_to_csv (fun _ => Ok "2029-04-13 12:00") Examples.linked
                   (iter ([Examples.a3] ++ Examples.a2 :: [Examples.a3]))
      = (mkCsv fieldnames rs, Some AttributeError)
      /\ Forall2 (fun x r => csv_row (fun _ => Ok "2029-04-13 12:00")
                                     Examples.linked x = Ok r)
                 [Examples.a3] rs
      /\ length rs = 1%nat)
  /\ write_to_json (fun _ => Ok "2029-04-13 12:00") Examples.linked
                   (iter ([Examples.a3] ++ Examples.a2 :: [Examples.a3]))
     = Raise AttributeError.
Proof.
  destruct (writers_on_failure (fun _ => Ok "2029-04-13 12:00") Examples.linked
              [Examples.a3] Examples.a2 [Examples.a3] AttributeError)
    as (Hcsv & Hjson & _).
  - repeat constructor. by eexists.
  - reflexivity.
  - split; [exact Hcsv | exact Hjson].
Defined.

(** ** The loader of NEOs *)

Section LoaderFacts.
Variable float_of_string : string -> option float.
Implicit Types (row : neo_row) (o : NearEarthObject).



Lemma neo_of_row_error row err :
  neo_of_row float_of_string row = inl err ->
  err = ValueError
  /\ exists text, diameter_cell row = Some text /\ text <> ""
                  /\ float_of_string text = None.
Proof.
  unfold neo_of_row.
  destruct (diameter_cell row) as [text|] eqn:Hcell; simpl.
  - destruct (String.eqb_spec text "") as [-> | Htext]; simpl.
    + unfold NearEarthObject_init. simpl. done.
    + destruct (float_of_string text) as [d|] eqn:Hf.
      * unfold NearEarthObject_init. simpl.
        by destruct (SFeqb d (S754_zero false)).
      * intros [= <-]. split; [done|]. by exists text.
  - unfold NearEarthObject_init. simpl. done.
Qed.
End LoaderFacts.



(** X19. [load_neos] fails as a whole at the first row whose diameter cell
    holds a text that is not empty and not a number, with [ValueError],
    the rows before it having been turned into NEOs; it fails in no other
    way, and the constructor itself never fails here. *)
Theorem load_neos_failed float_of_string rows err :
  load_neos float_of_string rows = inl err ->
  err = ValueError
  /\ exists pre row post os text,
      rows = pre ++ row :: post
      /\ load_neos float_of_string pre = inr os
      /\ neo_of_row float_of_string row = inl ValueError
      /\ diameter_cell row = Some text /\ text <> ""
      /\ float_of_string text = None.
Proof.
  induction rows as [|row rows IH]; simpl; [done|].
  destruct (neo_of_row float_of_string row) as [err'|o] eqn:Hrow.
  - intros [= <-].
    destruct (neo_of_row_error float_of_string row err' Hrow)
      as (-> & text & Hcell & Htext & Hf).
    split; [done|]. by exists [], row, rows, [], text.
  - destruct (load_neos float_of_string rows) as [err'|os']; [|done].
    intros [= <-].
    destruct IH as (-> & pre & bad & post & os & text & -> & Hpre & Hbad & Hrest);
      [done|].
    split; [done|].
    exists (row :: pre), bad, post, (o :: os), text. repeat split; try apply Hrest;
      try done.
    simpl. by rewrite Hrow, Hpre.
Qed.

Lemma load_neos_failed_witness :
  ValueError = ValueError
  /\ exists pre row post os text,
      [mkRow "433" (Some "Eros") None (Some "N");
       mkRow "99942" (Some "Apophis") (Some "big") (Some "Y")]
      = pre ++ row :: post
      /\ load_neos (fun _ => None) pre = inr os
      /\ neo_of_row (fun _ => None) row = inl ValueError
      /\ diameter_cell row = Some text /\ text <> ""
      /\ (fun _ : string => @None float) text = None.
Proof.
  apply (load_neos_failed (fun _ => None)
           [mkRow "433" (Some "Eros") None (Some "N");
            mkRow "99942" (Some "Apophis") (Some "big") (Some "Y")]
           ValueError).
  vm_compute. reflexivity.
Defined.

(** ** Queries on a linked database *)

Section LinkedQueryFacts.
Implicit Types (h : Heap) (neos : list loc) (acc idx : gmap string loc).

(** Every designation of the collection is in the index. *)
Lemma designation_index_present h neos acc idx d :
  designation_index h neos acc = Ok idx ->
  (exists n, n ∈ neos /\ designation_of h n = Some d) \/ is_Some (acc !! d) ->
  is_Some (idx !! d).
Proof.
  revert acc. induction neos as [|m neos IH]; intros acc; simpl.
  - intros [= <-] [(n & Hn & _) | Hacc]; [by inversion Hn | done].
  - unfold get_neo. destruct (neo_objects h !! m) as [o|] eqn:Ho; simpl; [|done].
    intros Hidx Hfrom. apply (IH _ Hidx).
    destruct (decide (designation o = d)) as [<- | Hne].
    + right. rewrite lookup_insert_eq. by eexists.
    + rewrite lookup_insert_ne by done.
      destruct Hfrom as [(n & Hn & Hd) | Hacc]; [|by right].
      left. exists n. split; [|done].
      apply elem_of_cons in Hn as [-> | Hn]; [|done].
      unfold designation_of in Hd. rewrite Ho in Hd. simpl in Hd. congruence.
Qed.

Lemma compare_numbers a b :
  is_number a -> is_number b -> compare_values a b <> Incomparable.
Proof.
  destruct a as [| |z|f|], b as [| |z'|g|]; simpl; try done;
    unfold compare_num_int, of_option; simpl; try done.
  - by destruct (float_int_compare g _).
  - by destruct (float_int_compare g z).
  - by destruct (float_int_compare f _).
  - by destruct (float_int_compare f z').
  - by destruct (SFcompare f g).
Qed.

(** A comparison of two numbers answers; equality answers on anything. *)
Lemma comparison_answers op a b :
  op = Py.eq \/ (is_comparison op /\ is_number a /\ is_number b) ->
  is_Ok (op a b).
Proof.
  assert (is_Ok (Py.eq a b)) as Heq.
  { unfold Py.eq. destruct a, b; try (by eexists);
      by destruct (compare_values _ _) as [[]| |]; eexists. }
  intros [-> | ([-> | [-> | ->]] & Ha & Hb)]; try done;
    pose proof (compare_numbers a b Ha Hb) as Hc; unfold Py.le, Py.ge;
    by destruct (compare_values a b) as [[]| |]; try done; eexists.
Qed.
End LinkedQueryFacts.

(** X20. After a construction in which every approach of the collection
    has the designation of some NEO of the collection, no approach is left
    without a NEO: a diameter or hazardous filter that tests equality, or
    compares with a number by one of the three comparisons, answers on
    every stored approach, and a query by such filters ends without an
    exception. *)
Theorem linked_database_answers h (neos approaches : list loc) h' db :
  NEODatabase_init h neos approaches = Ok (h', db) ->
  (forall a, a ∈ approaches ->
     exists d n, approach_designation h a = Some d
                 /\ n ∈ neos /\ designation_of h n = Some d) ->
  (forall a f,
      a ∈ approaches -> reads_neo f ->
      op f = Py.eq \/ (is_comparison (op f) /\ is_number (value_ f)) ->
      is_Ok (call f h' a))
  /\ (forall fs : list AttributeFilter,
        Forall (fun f => reads_neo f
                         /\ (op f = Py.eq
                             \/ (is_comparison (op f) /\ is_number (value_ f))))
               fs ->
        raised (query h' db (call <$> fs)) = None).
Proof.
  intros Hinit Hmatched.
  destruct (init_inv _ _ _ _ _ Hinit) as (idx & nidx & -> & Hidx & _ & Hlink).
  destruct (link_spec _ _ _ _ Hlink) as [Hneo Hca].
  assert (forall a f,
            a ∈ approaches -> reads_neo f ->
            op f = Py.eq \/ (is_comparison (op f) /\ is_number (value_ f)) ->
            is_Ok (call f h' a)) as Hanswers.
  { intros a f Ha Hf Hop.
    destruct (Hmatched a Ha) as (d & n & Hd & Hn & Hdn).
    unfold approach_designation in Hd.
    destruct (approach_objects h !! a) as [ca|] eqn:Hcaa; [|done].
    injection Hd as Hd.
    destruct (designation_index_present h neos ∅ idx d Hidx) as [m Hm].
    { left. by exists n. }
    destruct (designation_index_lookup _ _ _ _ _ _ Hidx Hm) as [[_ Hdes] | Habs];
      [|by rewrite lookup_empty in Habs].
    unfold designation_of in Hdes.
    destruct (neo_objects h !! m) as [o|] eqn:Ho; [|done].
    assert (get_approach h' a = Ok (with_neo ca m)) as Hget.
    { unfold get_approach. rewrite Hca, Hcaa. simpl.
      rewrite bool_decide_eq_true_2 by done. unfold relink. by rewrite Hd, Hm. }
    assert (exists o', get_neo h' m = Ok o') as [o' Hget'].
    { unfold get_neo. rewrite Hneo, Ho. by eexists. }
    unfold call.
    destruct Hf as [Hc | Hc]; rewrite Hc; simpl; rewrite Hget; simpl;
      rewrite Hget'; simpl; apply comparison_answers;
      (destruct Hop as [Hop | [Hop Hv]]; [by left | right; by repeat split]). }
  split; [exact Hanswers|].
  intros fs Hfs. unfold query. simpl. apply query_from_total.
  intros g a Hg Ha. apply list_elem_of_fmap in Hg as (f & -> & Hf).
  rewrite Forall_forall in Hfs. destruct (Hfs f Hf) as [Hr Hop].
  by apply Hanswers.
Qed.

Lemma linked_database_answers_witness :
  raised (query Examples.linked Examples.apophis_db
                (call <$> [Examples.dangerous;
                           mkFilter DiameterFilter Py.ge (VInt 1)]))
  = None.
Proof.
  destruct (linked_database_answers Examples.fresh [Examples.n3] [Examples.a3]
              Examples.linked Examples.apophis_db) as [_ Hquery].
  - vm_compute. reflexivity.
  - intros a Ha. apply elem_of_cons in Ha as [-> | Ha]; [|by inversion Ha].
    exists "99942", Examples.n3. repeat split. by constructor.
  - apply Hquery. constructor; [|constructor; [|constructor]].
    + split; [by right | by left].
    + split; [by left | right; split; [right; by right | exact I]].
Defined.

Section FilterSoundness.
Implicit Types (h : Heap) (a : loc) (f : AttributeFilter).

(** What a true answer of a filter that reads the NEO says. *)
Lemma reads_neo_true h a f :
  reads_neo f -> call f h a = Ok true ->
  exists ca n o,
    approach_objects h !! a = Some ca /\ neo ca = Some n
    /\ neo_objects h !! n = Some o
    /\ (cls f = DiameterFilter -> op f (VFloat (diameter o)) (value_ f) = Ok true)
    /\ (cls f = HazardousFilter -> op f (VBool (hazardous o)) (value_ f) = Ok true).
Proof.
  intros Hf. unfold call, get_approach, get_neo.
  destruct Hf as [Hc | Hc]; rewrite Hc; simpl; unfold get_approach, get_neo;
    (destruct (approach_objects h !! a) as [ca|]; simpl; [|done]);
    (destruct (neo ca) as [n|] eqn:Hn; simpl; [|done]);
    (destruct (neo_objects h !! n) as [o|] eqn:Ho; simpl; [|done]);
    intros Hop; exists ca, n, o; repeat split; done.
Qed.

Lemma Forall_when_true (P : AttributeFilter -> Prop) f :
  Forall P (when true f) -> P f.
Proof. intros H. by inversion H. Qed.

Lemma bool_eq_true (x y : bool) : Py.eq (VBool x) (VBool y) = Ok true -> x = y.
Proof. by destruct x, y. Qed.
End FilterSoundness.

(** X21. What a query by the factory's filters yields when a hazardous
    flag or a diameter bound was supplied: only approaches that have a NEO;
    with the flag supplied as a bool, only those whose NEO has that flag;
    with a diameter bound that is a number, none whose NEO has
    not-a-number as diameter. *)
Theorem neo_criteria_sound h db d sd ed dn dx vn vx an ax hz a :
  a ∈ yields (query h db (call <$> create_filters d sd ed dn dx vn vx an ax hz)) ->
  is_not_None hz = true \/ truthy an = true \/ truthy ax = true ->
  exists ca n o,
    approach_objects h !! a = Some ca /\ neo ca = Some n
    /\ neo_objects h !! n = Some o
    /\ (forall b, hz = VBool b -> hazardous o = b)
    /\ (truthy an = true -> is_number an -> diameter o <> nan)
    /\ (truthy ax = true -> is_number ax -> diameter o <> nan).
Proof.
  intros Ha Hsupplied.
  pose proof (query_yields_passing_aux h db
                (call <$> create_filters d sd ed dn dx vn vx an ax hz)) as Hpass.
  rewrite Forall_forall in Hpass. specialize (Hpass a Ha).
  rewrite Forall_fmap, create_filters_concat, !Forall_app in Hpass.
  destruct Hpass as (_ & _ & _ & _ & _ & _ & _ & Han & Hax & Hhz).
  assert (forall f, reads_neo f -> call f h a = Ok true ->
            exists ca n o,
              approach_objects h !! a = Some ca /\ neo ca = Some n
              /\ neo_objects h !! n = Some o) as Hlinked.
  { intros f Hf Hcall.
    destruct (reads_neo_true h a f Hf Hcall) as (ca & n & o & ? & ? & ? & _).
    by exists ca, n, o. }
  assert (exists ca n o,
            approach_objects h !! a = Some ca /\ neo ca = Some n
            /\ neo_objects h !! n = Some o) as (ca & n & o & Hca & Hn & Ho).
  { destruct Hsupplied as [Hs | [Hs | Hs]]; rewrite Hs in *.
    - apply Forall_when_true in Hhz. eapply Hlinked; [|exact Hhz]. by right.
    - apply Forall_when_true in Han. eapply Hlinked; [|exact Han]. by left.
    - apply Forall_when_true in Hax. eapply Hlinked; [|exact Hax]. by left. }
  exists ca, n, o. split; [done|]. split; [done|]. split; [done|].
  assert (forall f, reads_neo f -> call f h a = Ok true ->
            (cls f = DiameterFilter ->
             op f (VFloat (diameter o)) (value_ f) = Ok true)
            /\ (cls f = HazardousFilter ->
                op f (VBool (hazardous o)) (value_ f) = Ok true)) as Hsays.
  { intros f Hf Hcall.
    destruct (reads_neo_true h a f Hf Hcall)
      as (ca' & n' & o' & Hca' & Hn' & Ho' & Hd & Hz).
    rewrite Hca in Hca'. injection Hca' as <-.
    rewrite Hn in Hn'. injection Hn' as <-.
    rewrite Ho in Ho'. by injection Ho' as <-. }
  split; [|split].
  - intros b ->. simpl in Hhz. apply Forall_when_true in Hhz.
    destruct (Hsays (mkFilter HazardousFilter Py.eq (VBool b))
                (or_intror eq_refl) Hhz) as [_ Hz].
    by apply bool_eq_true, Hz.
  - intros Hs Hnum Hnan. rewrite Hs in Han. apply Forall_when_true in Han.
    destruct (Hsays (mkFilter DiameterFilter Py.ge an)
                (or_introl eq_refl) Han) as [Hd _].
    specialize (Hd eq_refl). simpl in Hd. rewrite Hnan in Hd.
    rewrite (nan_comparison_false Py.ge an) in Hd; [done | | done].
    right. by right.
  - intros Hs Hnum Hnan. rewrite Hs in Hax. apply Forall_when_true in Hax.
    destruct (Hsays (mkFilter DiameterFilter Py.le ax)
                (or_introl eq_refl) Hax) as [Hd _].
    specialize (Hd eq_refl). simpl in Hd. rewrite Hnan in Hd.
    rewrite (nan_comparison_false Py.le ax) in Hd; [done | | done].
    right. by left.
Qed.

Lemma neo_criteria_sound_witness :
  exists ca n o,
    approach_objects Examples.linked !! Examples.a3 = Some ca
    /\ neo ca = Some n
    /\ neo_objects Examples.linked !! n = Some o
    /\ hazardous o = true.
Proof.
  destruct (neo_criteria_sound Examples.linked Examples.apophis_db
              VNone VNone VNone VNone VNone VNone VNone VNone VNone
              (VBool true) Examples.a3)
    as (ca & n & o & Hca & Hn & Ho & Hhz & _).
  - vm_compute. by constructor.
  - by left.
  - exists ca, n, o. repeat split; try assumption. by apply Hhz.
Defined.

(** ** The unsupported criterion *)

Section UnsupportedFacts.
Implicit Types (h : Heap) (a : loc) (f : AttributeFilter).

Lemma comparison_raises op x y e :
  is_comparison op -> op x y = Raise e -> e = TypeError.
Proof.
  intros [-> | [-> | ->]]; unfold Py.eq, Py.le, Py.ge.
  - destruct x, y; try done; by destruct (compare_values _ _) as [[]| |].
  - destruct (compare_values x y) as [[]| |]; try done. by intros [= <-].
  - destruct (compare_values x y) as [[]| |]; try done. by intros [= <-].
Qed.

Lemma get_raises (c : filter_class) h a e :
  c <> AttributeFilterBase -> get c h a = Raise e ->
  e = AttributeError \/ e = InvalidReference.
Proof.
  intros Hc Hget. destruct c; [done|..]; simpl in Hget;
    unfold get_approach, get_neo in Hget;
    repeat match type of Hget with
           | context [match ?x with _ => _ end] => destruct x; simpl in Hget
           end;
    try done; injection Hget as <-; auto.
Qed.

Lemma call_raises f h a e :
  cls f <> AttributeFilterBase -> is_comparison (op f) ->
  call f h a = Raise e -> e <> UnsupportedCriterionError.
Proof.
  intros Hc Hop. unfold call.
  destruct (get (cls f) h a) as [x|e'] eqn:Hget; simpl.
  - intros Hraise. by rewrite (comparison_raises _ _ _ _ Hop Hraise).
  - intros [= <-]. by destruct (get_raises _ _ _ _ Hc Hget) as [-> | ->].
Qed.

Lemma all_raises (fs : list predicate) h a e :
  all fs h a = Raise e -> exists g, g ∈ fs /\ g h a = Raise e.
Proof.
  induction fs as [|g fs IH]; simpl; [done|].
  destruct (g h a) as [[|]|e'] eqn:Hg; simpl; try done.
  - intros Hall. destruct (IH Hall) as (g' & Hin & Hraise).
    exists g'. split; [by right | done].
  - intros [= <-]. exists g. split; [by left | done].
Qed.

Lemma create_filters_classes d sd ed dn dx vn vx an ax hz :
  Forall (fun f => cls f <> AttributeFilterBase /\ is_comparison (op f))
         (create_filters d sd ed dn dx vn vx an ax hz).
Proof.
  rewrite create_filters_concat. unfold is_comparison.
  repeat (apply Forall_app_2; [apply Forall_when; simpl; split; [done | auto]|]).
  apply Forall_when. simpl. split; [done | auto].
Qed.
End UnsupportedFacts.

(** X22. A filter of the base class makes a query raise
    [UnsupportedCriterionError] at the first stored approach, and yield
    nothing without an exception when there is none. The factory builds no
    such filter: a query by the factory's filters never raises that
    exception. *)
Theorem unsupported_criterion :
  (forall h db op v,
      query h db [call (mkFilter AttributeFilterBase op v)]
      = match _approaches db with
        | [] => SDone
        | _ :: _ => SRaise UnsupportedCriterionError
        end)
  /\ (forall h db d sd ed dn dx vn vx an ax hz,
        raised (query h db (call <$> create_filters d sd ed dn dx vn vx an ax hz))
        <> Some UnsupportedCriterionError).
Proof.
  split.
  - intros h db op v. unfold query. by destruct (_approaches db).
  - intros h db d sd ed dn dx vn vx an ax hz Hraised. unfold query in Hraised.
    destruct (query_from_yields h (_approaches db)
                (call <$> create_filters d sd ed dn dx vn vx an ax hz))
      as (pre & post & _ & _ & _ & Hr).
    rewrite Hraised in Hr. destruct Hr as (a & post' & _ & Hfails).
    unfold fails in Hfails.
    destruct (all _ h a) as [|e] eqn:Hall; [done|]. injection Hfails as ->.
    destruct (all_raises _ _ _ _ Hall) as (g & Hg & Hraise).
    apply list_elem_of_fmap in Hg as (f & -> & Hf).
    pose proof (create_filters_classes d sd ed dn dx vn vx an ax hz) as Hcls.
    rewrite Forall_forall in Hcls. destruct (Hcls f Hf) as [Hc Hop].
    by apply (call_raises f h a _ Hc Hop Hraise).
Qed.

Lemma unsupported_criterion_witness :
  query Examples.linked Examples.linked_db
        [call (mkFilter AttributeFilterBase Py.eq VNone)]
  = SRaise UnsupportedCriterionError.
Proof.
  exact (proj1 unsupported_criterion Examples.linked Examples.linked_db
           Py.eq VNone).
Defined.
